(** * Plugin resolution, compatibility verification and task aggregation

    A shallow embedding of the [plugins] package (the file that defines
    [LoadPluginsTasks], [loadPluginsTasks], [resolvePlugins],
    [verifyPluginCompatibility] and [verifySinglePluginCompatibility]).

    Conventions.
    - A Go [map] is a [gmap]; the one place where the program tells a nil map
      from an empty one ([plugins == nil] in [loadPluginsTasks]) uses
      [option (gmap _ _)], [None] being the nil map.
    - [for k, v := range m] visits the entries of [m] in an unspecified order.
      Loops are written over a list of entries; the functions on maps take
      [map_to_list], and the order-independence lemmas show that any other
      enumeration gives the same result.
    - A Go [error] is the text of its [Error()] method; a function that
      returns [error] returns [option error], [None] being [nil].
    - A run-time panic (calling a method on the nil [PluginInfo] obtained from
      a missing map key) is [None] in the option monad; the theorems show
      that the functions of the package never reach one.
    - Effects are explicit: the stateful functions pass a [World], which
      also records the calls that leave the package. *)

From Stdlib Require Import Strings.Byte.
From stdpp Require Import gmap strings list sorting pretty.

(** ** Go's [error], [fmt] and [strings] helpers used by the package *)

Definition error := string.

(** [strings.Repeat(s, n)]. *)
Fixpoint strings_Repeat (s : string) (n : nat) : string :=
  match n with
  | O => ""
  | S n => s +:+ strings_Repeat s n
  end.

(** [strings.Join(parts, sep)]. *)
Definition strings_Join (parts : list string) (sep : string) : string :=
  String.concat sep parts.

(** [fmt.Sprintf("%v", l)] for [l : []string]: the elements separated by one
    space, between square brackets. *)
Definition fmt_v_strings (l : list string) : string :=
  "[" +:+ String.concat " " l +:+ "]".

(** [fmt.Sprintf("%d", n)] for a length. *)
Definition fmt_d (n : nat) : string := pretty n.

(** [errors.Wrapf(err, msg)]: the message, a colon and the cause. *)
Definition errors_Wrapf (err : error) (msg : string) : error :=
  msg +:+ ": " +:+ err.

(** [sort.Strings]: ascending byte-wise order.  The sorted permutation of a
    list of strings is unique, so the algorithm does not matter. *)
Definition sort_Strings (l : list string) : list string :=
  merge_sort String.le l.

(** ** package osarch *)

Module osarch.
Record OSArch : Type := mkOSArch { OS : string; Arch : string }.
End osarch.
Export osarch.

(** ** package artifactresolver *)

Module artifactresolver.

Record Locator : Type := mkLocator {
  Group : string;
  Product : string;
  Version : string;
}.

#[global] Instance Locator_eq_dec : EqDecision Locator.
Proof. solve_decision. Defined.

#[global] Instance Locator_countable : Countable Locator.
Proof.
  refine (inj_countable' (λ l, (Group l, Product l, Version l))
                         (λ t, mkLocator t.1.1 t.1.2 t.2) _).
  by intros [].
Defined.

(** A resolver, identified by its spec. *)
Definition Resolver : Type := string.

Record LocatorWithChecksums : Type := mkLocatorWithChecksums {
  Locator_ : Locator;
  Checksums : list (OSArch * string);
}.

(** A Locator with its checksums and its custom resolver, if any. *)
Record LocatorWithResolverParam : Type := mkLocatorWithResolverParam {
  LocatorWithChecksums_ : LocatorWithChecksums;
  Resolver_ : option Resolver;
}.

End artifactresolver.
Export artifactresolver.

(** ** package godellauncher *)

Module godellauncher.

(** A runnable task.  This package reads only [Name]; the rest of the
    descriptor is what [PluginInfo.Tasks] bound it to: the plugin
    executable and the asset paths. *)
Record Task : Type := mkTask {
  Name : string;
  TaskExec : string;
  TaskAssets : list string;
}.

Record UpgradeConfigTask : Type := mkUpgradeConfigTask {
  ID : string;
  UpgradeExec : string;
  UpgradeAssets : list string;
}.

(** A plugin declaration: the plugin and the assets specified for it. *)
Record SinglePluginParam : Type := mkSinglePluginParam {
  LocatorWithResolverParam_ : LocatorWithResolverParam;
  Assets : list LocatorWithResolverParam;
}.

Record PluginsParam : Type := mkPluginsParam {
  DefaultResolvers : list Resolver;
  Plugins : list SinglePluginParam;
}.

End godellauncher.
Export godellauncher.

(** ** package pluginapi *)

Module pluginapi.

(** The [PluginInfo] interface, as far as this package calls it. *)
Record PluginInfo : Type := mkPluginInfo {
  Tasks : string → list string → list Task;
  UsesConfig : bool;
  UpgradeConfigTask : string → list string → option godellauncher.UpgradeConfigTask;
}.

End pluginapi.
Export pluginapi.

(** ** package pluginsinternal: the order on Locators *)

Module pluginsinternal.

(** Modelled from the spec: [pluginsinternal.SortLocators] is not among
    the sources.  The spec orders Locators by group, then product,
    then version; strings are compared byte-wise as Go does. *)
Definition Locator_leb (a b : Locator) : bool :=
  if decide (Group a = Group b) then
    if decide (Product a = Product b) then String.leb (Version a) (Version b)
    else String.leb (Product a) (Product b)
  else String.leb (Group a) (Group b).

Definition Locator_le (a b : Locator) : Prop := Locator_leb a b.

#[global] Instance Locator_le_dec : RelDecision Locator_le.
Proof. intros a b. unfold Locator_le. apply _. Defined.

Definition SortLocators (locs : list Locator) : list Locator :=
  merge_sort Locator_le locs.

End pluginsinternal.
Export pluginsinternal.

(** ** package plugins: compatibility verification *)

(** The line feed that the messages of this package are joined with. *)
Definition LF : string := String (Ascii.ascii_of_nat 10) "".

(** [pluginInfoWithAssets] bundles a plugin's info with the Locators of the
    assets specified for it.  A stored value carries an actual [PluginInfo];
    the zero value with its nil interface only arises from looking up a
    missing key, which is where the functions below panic. *)
Record pluginInfoWithAssets : Type := mkPluginInfoWithAssets {
  PluginInfo : pluginapi.PluginInfo;
  Assets : list Locator;
}.

(** [for _, x := range entries { body }] where the body may panic. *)
Fixpoint rangeM {A S : Type} (body : A → S → option S) (entries : list A) (s : S)
    : option S :=
  match entries with
  | [] => Some s
  | x :: entries => s' ← body x s; rangeM body entries s'
  end.

Definition errDifferentVersion : error := "different version of the same plugin".

Definition errConfigCollision : error :=
  "plugins have the same product name and both use configuration (this not currently supported -- if this situation is encountered, please file an issue to flag it)".

Definition errConflictingTasks (commonTasks : list string) : error :=
  "provides conflicting tasks: " +:+ fmt_v_strings commonTasks.

(** The names of the tasks that a plugin declares, in the order it declares
    them: [Tasks("", nil)] and the [Name] of each. *)
Definition taskNames (info : pluginInfoWithAssets) : list string :=
  Name <$> Tasks (PluginInfo info) "" [].

(** Lines 275 to 293: the sorted task names of [currPluginInfo] that
    [otherPluginInfo] declares too. *)
Definition commonTasksOf (currPluginInfo otherPluginInfo : pluginInfoWithAssets)
    : list string :=
  let currPluginTasks := sort_Strings (taskNames currPluginInfo) in
  let otherPluginTasks : gset string :=
    list_to_set (taskNames otherPluginInfo) in
  filter (λ currPluginTask, currPluginTask ∈ otherPluginTasks) currPluginTasks.

(** One iteration of the loop of [verifySinglePluginCompatibility]. *)
Definition verifyOther (plugin : Locator)
    (plugins : gmap Locator pluginInfoWithAssets)
    (entry : Locator * pluginInfoWithAssets)
    (errs : gmap Locator error) : option (gmap Locator error) :=
  let '(otherPlugin, otherPluginInfo) := entry in
  if decide (otherPlugin = plugin) then Some errs
  else if decide (Group otherPlugin = Group plugin
                  ∧ Product otherPlugin = Product plugin) then
    Some (<[otherPlugin := errDifferentVersion]> errs)
  else
    bothUseConfig ←
      (if decide (Product plugin = Product otherPlugin) then
         currPluginInfo ← plugins !! plugin;
         Some (UsesConfig (PluginInfo currPluginInfo)
               && UsesConfig (PluginInfo otherPluginInfo))
       else Some false);
    if (bothUseConfig : bool) then
      Some (<[otherPlugin := errConfigCollision]> errs)
    else
      currPluginInfo ← plugins !! plugin;
      let commonTasks := commonTasksOf currPluginInfo otherPluginInfo in
      if decide (length commonTasks ≠ 0) then
        Some (<[otherPlugin := errConflictingTasks commonTasks]> errs)
      else Some errs.

(** [verifySinglePluginCompatibility] with the enumeration of [plugins]
    that the [range] loop happens to follow made explicit. *)
Definition verifySinglePluginCompatibility_in
    (entries : list (Locator * pluginInfoWithAssets))
    (plugin : Locator) (plugins : gmap Locator pluginInfoWithAssets)
    : option (gmap Locator error) :=
  rangeM (verifyOther plugin plugins) entries ∅.

Definition verifySinglePluginCompatibility
    (plugin : Locator) (plugins : gmap Locator pluginInfoWithAssets)
    : option (gmap Locator error) :=
  verifySinglePluginCompatibility_in (map_to_list plugins) plugin plugins.

(** What an iteration of that loop records for [otherPlugin] when [plugin]
    is a key of [plugins] with value [currPluginInfo]: the reason of the
    first rule that matches, if one does. *)
Definition pairConflict (plugin : Locator) (currPluginInfo : pluginInfoWithAssets)
    (otherPlugin : Locator) (otherPluginInfo : pluginInfoWithAssets)
    : option error :=
  if decide (otherPlugin = plugin) then None
  else if decide (Group otherPlugin = Group plugin
                  ∧ Product otherPlugin = Product plugin) then
    Some errDifferentVersion
  else if bool_decide (Product plugin = Product otherPlugin)
          && UsesConfig (PluginInfo currPluginInfo)
          && UsesConfig (PluginInfo otherPluginInfo) then
    Some errConfigCollision
  else
    let commonTasks := commonTasksOf currPluginInfo otherPluginInfo in
    if decide (length commonTasks ≠ 0) then
      Some (errConflictingTasks commonTasks)
    else None.

(** The reason that a ConflictReport holds for the ordered pair [(a, b)]. *)
Definition reported (conflicts : gmap Locator (gmap Locator error))
    (a b : Locator) : option error :=
  conflicts !! a ≫= (.!! b).

(** The first loop of [verifyPluginCompatibility]: the ConflictReport. *)
Definition conflictsOf_in (keys : list Locator)
    (plugins : gmap Locator pluginInfoWithAssets)
    : option (gmap Locator (gmap Locator error)) :=
  rangeM (λ currPlugin conflicts,
            currConflicts ← verifySinglePluginCompatibility currPlugin plugins;
            if decide (size currConflicts = 0) then Some conflicts
            else Some (<[currPlugin := currConflicts]> conflicts))
         keys ∅.

Definition conflictsOf (plugins : gmap Locator pluginInfoWithAssets)
    : option (gmap Locator (gmap Locator error)) :=
  conflictsOf_in (elements (dom plugins)) plugins.

(** ** The world the package runs in *)

(** A Go call that returns [(value, error)]. *)
Inductive Result (A : Type) : Type :=
  | Ok (a : A)
  | Err (err : error).
Arguments Ok {A} a.
Arguments Err {A} err.

(** An error of package [os]: its text and what [os.IsNotExist] says of it. *)
Record PathError : Type := mkPathError {
  IsNotExist : bool;
  PathErrorText : error;
}.

(** A file outside the plugins, assets and downloads directories. *)
Inductive File : Type :=
  | FileContent (data : list Byte.byte)
  | FileUnreadable (err : error).

(** The calls that leave the package, in the order they are made. *)
Inductive Event : Type :=
  | EvLock (path : string)
  | EvUnlock (path : string)
  | EvResolveAndVerify (loc : Locator)
  | EvInfoFromPlugin (path : string)
  | EvResolveAssets (assets : list LocatorWithResolverParam)
  | EvWriteFile (path : string) (data : list Byte.byte).

(** The plugins, assets and downloads directories (and the [stdout] that
    resolvers report progress on) are the state that the resolution backend
    and the plugin executables read and write: a [Disk].  The world adds the
    files outside those directories, the lock files held and the calls
    made. *)
Record World (Disk : Type) : Type := mkWorld {
  disk : Disk;
  files : gmap string File;
  held : list string;
  trace : list Event;
}.
Arguments mkWorld {Disk} disk files held trace.
Arguments disk {Disk} w.
Arguments files {Disk} w.
Arguments held {Disk} w.
Arguments trace {Disk} w.

Definition setDisk {Disk : Type} (d : Disk) (w : World Disk) : World Disk :=
  mkWorld d (files w) (held w) (trace w).

Definition logEvent {Disk : Type} (ev : Event) (w : World Disk) : World Disk :=
  mkWorld (disk w) (files w) (held w) (trace w ++ [ev]).

(** The constants and functions of other packages and of other files of
    this package, which the sources do not contain. *)
Class Collaborators (Disk : Type) : Type := mkCollaborators {
  (** [pluginsinternal.IndentSpaces]. *)
  IndentSpaces : nat;
  (** [Locator.String()], and a Locator under the verbs [%+v]; a string
      under [%q]. *)
  Locator_String : Locator → string;
  fmt_plus_v : Locator → string;
  fmt_q : string → string;
  (** [filepath.Join] of two elements. *)
  filepath_Join : string → string → string;
  (** [pathsinternal.ResourceDirs], [PluginPath] and [PluginFileName]. *)
  ResourceDirs : Disk → Result (string * string * string);
  PluginPath : string → Locator → string;
  PluginFileName : Locator → string;
  (** [osarch.Current()]. *)
  osarch_Current : OSArch;
  (** Whether [lockedfile.MutexAt(path).Lock()] fails, and with what. *)
  lockError : string → Disk → option error;
  (** The artifact resolution backend followed by the checksum check, for
      one Locator: the directories afterwards and the reason of a failure.
      Arguments: the declaration, the destination and downloads
      directories, the default resolvers and the platform. *)
  resolveArtifact :
    LocatorWithResolverParam → string → string → list Resolver → OSArch →
    Disk → Disk * option error;
  (** [pluginapi.InfoFromPlugin]: runs the executable at the path. *)
  InfoFromPlugin_ext : string → Disk → Disk * Result pluginapi.PluginInfo;
  (** [pluginsinternal.ResolveAssets]. *)
  ResolveAssets_ext :
    string → string → list LocatorWithResolverParam → OSArch → list Resolver →
    Disk → Disk * Result (list Locator);
  (** The cache codec.  [unmarshalPluginsInfoJSON] returns a map, which may
      be nil, and an error. *)
  marshalPluginsInfoJSON :
    gmap Locator pluginInfoWithAssets → Result (list Byte.byte);
  unmarshalPluginsInfoJSON :
    list Byte.byte → option (gmap Locator pluginInfoWithAssets) * option error;
  (** Whether replacing the file at a path fails, and with what. *)
  renameError : string → gmap string File → option error;
}.

Section plugins.

Context {Disk : Type} `{!Collaborators Disk}.

Local Abbreviation World := (World Disk).

(** *** Verification: the error text *)

(** The text of the error for a non-empty ConflictReport.  The keys that
    are looked up come from the maps themselves. *)
Definition conflictsErrString (conflicts : gmap Locator (gmap Locator error))
    : string :=
  let sortedOuterKeys := SortLocators (elements (dom conflicts)) in
  foldl (λ errString k,
           let errString :=
             errString +:+ LF +:+ strings_Repeat " " IndentSpaces
                       +:+ Locator_String k +:+ ":" in
           let sortedInnerKeys :=
             SortLocators (elements (dom (conflicts !!! k))) in
           foldl (λ errString innerK,
                    errString +:+ LF
                      +:+ strings_Repeat " " (IndentSpaces * 2)
                      +:+ (conflicts !!! k) !!! innerK)
                 errString sortedInnerKeys)
        (fmt_d (size conflicts) +:+ " plugins had compatibility issues:")
        sortedOuterKeys.

(** [verifyPluginCompatibility]: [Some None] is the nil error. *)
Definition verifyPluginCompatibility
    (plugins : gmap Locator pluginInfoWithAssets) : option (option error) :=
  conflicts ← conflictsOf plugins;
  if decide (size conflicts = 0) then Some None
  else Some (Some (conflictsErrString conflicts)).

(** *** Calls that leave the package *)

(** [os.ReadFile]. *)
Definition os_ReadFile (path : string) (w : World)
    : list Byte.byte + PathError :=
  match files w !! path with
  | None => inr (mkPathError true
                   ("open " +:+ path +:+ ": no such file or directory"))
  | Some (FileContent data) => inl data
  | Some (FileUnreadable err) => inr (mkPathError false err)
  end.

(** Modelled from the spec: [writeFileUsingRename] is not among the
    sources.  The spec has it replace the file atomically (write
    to a temporary path in the same directory, then rename over the
    destination): a write that fails leaves the file as it was. *)
Definition writeFileUsingRename (path : string) (data : list Byte.byte) (w : World)
    : option error * World :=
  let w := logEvent (EvWriteFile path data) w in
  match renameError path (files w) with
  | Some err => (Some err, w)
  | None =>
      (None, mkWorld (disk w) (<[path := FileContent data]> (files w))
                     (held w) (trace w))
  end.

(** [lockedfile.MutexAt(path).Lock()]: a failure changes nothing. *)
Definition lockedfile_Lock (path : string) (w : World) : option error * World :=
  match lockError path (disk w) with
  | Some err => (Some err, w)
  | None =>
      (None, logEvent (EvLock path)
               (mkWorld (disk w) (files w) (path :: held w) (trace w)))
  end.

(** The [unlock] function that [Lock] returns. *)
Definition unlock (path : string) (w : World) : World :=
  logEvent (EvUnlock path)
    (mkWorld (disk w) (files w)
             (filter (λ p, p ≠ path) (held w)) (trace w)).

(** Modelled from the spec: [pluginsinternal.ResolveAndVerify] is not
    among the sources.  It carries out steps 2a and 2b of the spec for
    one declaration; a failure is recorded in [pluginErrors], keyed by the
    declaration's Locator, and reported by the boolean. *)
Definition ResolveAndVerify (locWithResolverParam : LocatorWithResolverParam)
    (pluginErrors : gmap Locator error) (pluginsDir downloadsDir : string)
    (defaultResolvers : list Resolver) (osArch : OSArch) (w : World)
    : Locator * bool * gmap Locator error * World :=
  let currLocator := Locator_ (LocatorWithChecksums_ locWithResolverParam) in
  let w := logEvent (EvResolveAndVerify currLocator) w in
  let '(d, failure) :=
    resolveArtifact locWithResolverParam pluginsDir downloadsDir
                    defaultResolvers osArch (disk w) in
  let w := setDisk d w in
  match failure with
  | Some err => (currLocator, false, <[currLocator := err]> pluginErrors, w)
  | None => (currLocator, true, pluginErrors, w)
  end.

Definition InfoFromPlugin (path : string) (w : World)
    : Result pluginapi.PluginInfo * World :=
  let w := logEvent (EvInfoFromPlugin path) w in
  let '(d, r) := InfoFromPlugin_ext path (disk w) in
  (r, setDisk d w).

Definition ResolveAssets (assetsDir downloadsDir : string)
    (assets : list LocatorWithResolverParam) (osArch : OSArch)
    (defaultResolvers : list Resolver) (w : World)
    : Result (list Locator) * World :=
  let w := logEvent (EvResolveAssets assets) w in
  let '(d, r) :=
    ResolveAssets_ext assetsDir downloadsDir assets osArch defaultResolvers
                      (disk w) in
  (r, setDisk d w).

(** *** resolvePlugins *)

(** The state of the loop of [resolvePlugins]: the two maps and the
    world. *)
Definition ResolveState : Type :=
  gmap Locator pluginInfoWithAssets * gmap Locator error * World.

(** One iteration of the loop of [resolvePlugins]; each [continue] of the
    source is a branch that returns the state reached so far. *)
Definition resolveOne (pluginsDir assetsDir downloadsDir : string)
    (osArch : OSArch) (pluginsParam : PluginsParam)
    (st : ResolveState) (currPlugin : SinglePluginParam) : ResolveState :=
  let '(plugins, pluginErrors, w) := st in
  let '(currPluginLocator, ok, pluginErrors, w) :=
    ResolveAndVerify (LocatorWithResolverParam_ currPlugin) pluginErrors
                     pluginsDir downloadsDir (DefaultResolvers pluginsParam)
                     osArch w in
  if negb ok then (plugins, pluginErrors, w)
  else
    let '(info, w) :=
      InfoFromPlugin
        (filepath_Join pluginsDir (PluginFileName currPluginLocator)) w in
    match info with
    | Err err =>
        (plugins,
         <[currPluginLocator :=
             errors_Wrapf err ("failed to get plugin info for plugin "
                                 +:+ fmt_plus_v currPluginLocator)]>
           pluginErrors,
         w)
    | Ok info =>
        let '(assetInfoMap, w) :=
          ResolveAssets assetsDir downloadsDir
                        (godellauncher.Assets currPlugin) osArch
                        (DefaultResolvers pluginsParam) w in
        match assetInfoMap with
        | Err err =>
            (plugins,
             <[currPluginLocator :=
                 errors_Wrapf err ("failed to get asset(s) for plugin "
                                     +:+ fmt_plus_v currPluginLocator)]>
               pluginErrors,
             w)
        | Ok assetInfoMap =>
            (<[currPluginLocator :=
                 mkPluginInfoWithAssets info assetInfoMap]> plugins,
             pluginErrors, w)
        end
    end.

(** The summary of the errors of a run, for a non-empty [pluginErrors]. *)
Definition resolveErrString (pluginErrors : gmap Locator error) : string :=
  let sortedKeys := SortLocators (elements (dom pluginErrors)) in
  let errStringsParts :=
    foldl (λ errStringsParts k, errStringsParts ++ [pluginErrors !!! k])
          ["failed to resolve " +:+ fmt_d (size pluginErrors)
                                +:+ " plugin(s):"]
          sortedKeys in
  strings_Join errStringsParts (LF +:+ strings_Repeat " " IndentSpaces).

(** What [resolvePlugins] does while it holds the lock. *)
Definition resolvePluginsLocked (pluginsDir assetsDir downloadsDir : string)
    (osArch : OSArch) (pluginsParam : PluginsParam) (w : World)
    : Result (gmap Locator pluginInfoWithAssets) * World :=
  let '(plugins, pluginErrors, w) :=
    foldl (resolveOne pluginsDir assetsDir downloadsDir osArch pluginsParam)
          (∅, ∅, w) (Plugins pluginsParam) in
  if decide (size pluginErrors = 0) then (Ok plugins, w)
  else (Err (resolveErrString pluginErrors), w).

(** [resolvePlugins]: [defer unlock()] runs when the function returns,
    whatever it returns. *)
Definition resolvePlugins (pluginsDir assetsDir downloadsDir : string)
    (osArch : OSArch) (pluginsParam : PluginsParam) (w : World)
    : Result (gmap Locator pluginInfoWithAssets) * World :=
  let pluginResolverLockFilePath :=
    filepath_Join pluginsDir "godel-resolver.lock" in
  match lockedfile_Lock pluginResolverLockFilePath w with
  | (Some err, w) =>
      (Err (errors_Wrapf err "failed to lock resolver mutex file"), w)
  | (None, w) =>
      let '(r, w) :=
        resolvePluginsLocked pluginsDir assetsDir downloadsDir osArch
                             pluginsParam w in
      (r, unlock pluginResolverLockFilePath w)
  end.

(** *** loadPluginsTasks *)

(** Lines 67 to 78: the [plugins] variable after the cache has been
    consulted ([None] is the nil map), or the error returned from there. *)
Definition loadCache (cachePath : string) (w : World)
    : Result (option (gmap Locator pluginInfoWithAssets)) :=
  if decide (cachePath ≠ "") then
    match os_ReadFile cachePath w with
    | inl pluginsConfigCacheBytes =>
        match unmarshalPluginsInfoJSON pluginsConfigCacheBytes with
        | (_, Some err) =>
            Err (errors_Wrapf err "failed to unmarshal plugin information")
        | (loadedPlugins, None) => Ok loadedPlugins
        end
    | inr err =>
        if negb (IsNotExist err) then
          Err (errors_Wrapf (PathErrorText err)
                 ("failed to read plugin information from cache file at "
                    +:+ fmt_q cachePath))
        else Ok None
    end
  else Ok None.

(** Lines 81 to 98: the body of [if plugins == nil].  [None] is a panic. *)
Definition resolveFresh (pluginsDir assetsDir downloadsDir cachePath : string)
    (pluginsParam : PluginsParam) (w : World)
    : option (Result (gmap Locator pluginInfoWithAssets)) * World :=
  match resolvePlugins pluginsDir assetsDir downloadsDir osarch_Current
                       pluginsParam w with
  | (Err err, w) => (Some (Err err), w)
  | (Ok plugins, w) =>
      match verifyPluginCompatibility plugins with
      | None => (None, w)
      | Some (Some err) => (Some (Err err), w)
      | Some None =>
          if decide (cachePath ≠ "") then
            match marshalPluginsInfoJSON plugins with
            | Err err =>
                (Some (Err (errors_Wrapf err
                              "failed to marshal plugin information")), w)
            | Ok pluginsJSON =>
                match writeFileUsingRename cachePath pluginsJSON w with
                | (Some err, w) =>
                    (Some (Err (errors_Wrapf err
                       ("failed to write plugin information to cache file at "
                          +:+ fmt_q cachePath))), w)
                | (None, w) => (Some (Ok plugins), w)
                end
            end
          else (Some (Ok plugins), w)
      end
  end.

(** One iteration of the loop of lines 109 to 123. *)
Definition aggregateOne (pluginsDir assetsDir : string)
    (plugins : gmap Locator pluginInfoWithAssets) (pluginLoc : Locator)
    (acc : list Task * list godellauncher.UpgradeConfigTask)
    : option (list Task * list godellauncher.UpgradeConfigTask) :=
  let '(tasks, upgradeConfigTasks) := acc in
  let pluginExecPath := PluginPath pluginsDir pluginLoc in
  pluginInfoWithAssets ← plugins !! pluginLoc;
  let assetPaths :=
    (λ assetLoc, PluginPath assetsDir assetLoc)
      <$> Assets pluginInfoWithAssets in
  let tasks :=
    tasks ++ Tasks (PluginInfo pluginInfoWithAssets) pluginExecPath assetPaths in
  match UpgradeConfigTask (PluginInfo pluginInfoWithAssets)
                          pluginExecPath assetPaths with
  | Some upgradeConfigTask =>
      Some (tasks, upgradeConfigTasks ++ [upgradeConfigTask])
  | None => Some (tasks, upgradeConfigTasks)
  end.

(** Lines 101 to 124, with the enumeration of the keys of [plugins] that
    the first loop follows made explicit. *)
Definition aggregate_in (keys : list Locator) (pluginsDir assetsDir : string)
    (plugins : gmap Locator pluginInfoWithAssets)
    : option (list Task * list godellauncher.UpgradeConfigTask) :=
  let sortedPluginLocators := SortLocators keys in
  rangeM (aggregateOne pluginsDir assetsDir plugins)
         sortedPluginLocators ([], []).

Definition aggregate (pluginsDir assetsDir : string)
    (plugins : gmap Locator pluginInfoWithAssets)
    : option (list Task * list godellauncher.UpgradeConfigTask) :=
  aggregate_in (elements (dom plugins)) pluginsDir assetsDir plugins.

(** [loadPluginsTasks].  [None] is a panic. *)
Definition loadPluginsTasks (pluginsParam : PluginsParam) (cachePath : string)
    (w : World)
    : option (Result (list Task * list godellauncher.UpgradeConfigTask)) * World :=
  match ResourceDirs (disk w) with
  | Err err => (Some (Err err), w)
  | Ok (pluginsDir, assetsDir, downloadsDir) =>
      match loadCache cachePath w with
      | Err err => (Some (Err err), w)
      | Ok plugins =>
          let '(plugins, w) :=
            match plugins with
            | None =>
                resolveFresh pluginsDir assetsDir downloadsDir cachePath
                             pluginsParam w
            | Some plugins => (Some (Ok plugins), w)
            end in
          match plugins with
          | None => (None, w)
          | Some (Err err) => (Some (Err err), w)
          | Some (Ok plugins) =>
              (Ok <$> aggregate pluginsDir assetsDir plugins, w)
          end
      end
  end.

(** [LoadPluginsTasks]: no cache. *)
Definition LoadPluginsTasks (pluginsParam : PluginsParam) (w : World)
    : option (Result (list Task * list godellauncher.UpgradeConfigTask)) * World :=
  loadPluginsTasks pluginsParam "" w.

(** *** The behaviour the spec describes, to compare the code with *)

Definition declLocator (currPlugin : SinglePluginParam) : Locator :=
  Locator_ (LocatorWithChecksums_ (LocatorWithResolverParam_ currPlugin)).

(** Steps 2a to 2d of the spec for one declaration, on their own: the
    Locator, and either the reason of the failure or what was resolved. *)
Definition attemptDeclaration (pluginsDir assetsDir downloadsDir : string)
    (osArch : OSArch) (pluginsParam : PluginsParam)
    (currPlugin : SinglePluginParam) (w : World)
    : Locator * Result pluginInfoWithAssets * World :=
  let loc := declLocator currPlugin in
  let w := logEvent (EvResolveAndVerify loc) w in
  let '(d, failure) :=
    resolveArtifact (LocatorWithResolverParam_ currPlugin) pluginsDir
                    downloadsDir (DefaultResolvers pluginsParam) osArch
                    (disk w) in
  let w := setDisk d w in
  match failure with
  | Some err => (loc, Err err, w)
  | None =>
      let '(info, w) :=
        InfoFromPlugin (filepath_Join pluginsDir (PluginFileName loc)) w in
      match info with
      | Err err =>
          (loc,
           Err (errors_Wrapf err ("failed to get plugin info for plugin "
                                    +:+ fmt_plus_v loc)),
           w)
      | Ok info =>
          let '(assets, w) :=
            ResolveAssets assetsDir downloadsDir
                          (godellauncher.Assets currPlugin) osArch
                          (DefaultResolvers pluginsParam) w in
          match assets with
          | Err err =>
              (loc,
               Err (errors_Wrapf err ("failed to get asset(s) for plugin "
                                        +:+ fmt_plus_v loc)),
               w)
          | Ok assets => (loc, Ok (mkPluginInfoWithAssets info assets), w)
          end
      end
  end.

(** Every declaration attempted in turn, whatever the earlier ones gave:
    the outcomes in the order of the declarations. *)
Fixpoint attemptAll (pluginsDir assetsDir downloadsDir : string)
    (osArch : OSArch) (pluginsParam : PluginsParam)
    (decls : list SinglePluginParam) (w : World)
    : list (Locator * Result pluginInfoWithAssets) * World :=
  match decls with
  | [] => ([], w)
  | currPlugin :: decls =>
      let '(loc, out, w) :=
        attemptDeclaration pluginsDir assetsDir downloadsDir osArch
                           pluginsParam currPlugin w in
      let '(outs, w) :=
        attemptAll pluginsDir assetsDir downloadsDir osArch pluginsParam
                   decls w in
      ((loc, out) :: outs, w)
  end.

(** The tasks of one resolved plugin, bound to its executable and to the
    paths of its assets, and its upgrade-config task if it has one. *)
Definition boundTasks (pluginsDir assetsDir : string)
    (entry : Locator * pluginInfoWithAssets) : list Task :=
  Tasks (PluginInfo entry.2) (PluginPath pluginsDir entry.1)
        (PluginPath assetsDir <$> Assets entry.2).

Definition boundUpgradeConfigTask (pluginsDir assetsDir : string)
    (entry : Locator * pluginInfoWithAssets)
    : option godellauncher.UpgradeConfigTask :=
  UpgradeConfigTask (PluginInfo entry.2) (PluginPath pluginsDir entry.1)
                    (PluginPath assetsDir <$> Assets entry.2).

End plugins.

(** The Locators that a trace shows an attempt for, in order. *)
Definition attempts (tr : list Event) : list Locator :=
  omap (λ ev, match ev with EvResolveAndVerify loc => Some loc | _ => None end) tr.

(** The events of resolution proper: neither a lock nor a write. *)
Definition resolutionEvent (ev : Event) : Prop :=
  match ev with
  | EvResolveAndVerify _ | EvInfoFromPlugin _ | EvResolveAssets _ => True
  | _ => False
  end.

Definition writeEvent (ev : Event) : Prop :=
  match ev with EvWriteFile _ _ => True | _ => False end.

(** The failures among the outcomes of a run, and the successes. *)
Definition failuresOf (outs : list (Locator * Result pluginInfoWithAssets))
    : list (Locator * error) :=
  omap (λ o, match o.2 with Err err => Some (o.1, err) | Ok _ => None end) outs.

Definition successesOf (outs : list (Locator * Result pluginInfoWithAssets))
    : list (Locator * pluginInfoWithAssets) :=
  omap (λ o, match o.2 with Ok info => Some (o.1, info) | Err _ => None end) outs.

(** A later entry for a key replaces an earlier one, as assignments to a Go
    map in list order do. *)
Definition assignAll {V : Type} (l : list (Locator * V)) : gmap Locator V :=
  foldl (λ m kv, <[kv.1 := kv.2]> m) ∅ l.

(** The entries of a map in the order of its sorted keys. *)
Definition sortedEntries (plugins : gmap Locator pluginInfoWithAssets)
    : list (Locator * pluginInfoWithAssets) :=
  omap (λ k, (k,.) <$> plugins !! k) (SortLocators (elements (dom plugins))).

(** ** A small concrete world, to run the definitions on *)

Module Demo.

(** Whether the plugins directory can be written to, and the Locators
    whose executable is in place. *)
Definition Disk : Type := bool * list Locator.

Definition locatorText (l : Locator) : string :=
  Group l +:+ ":" +:+ Product l +:+ ":" +:+ Version l.

Definition quote : string := String (Ascii.ascii_of_nat 34) "".

(** A plugin that declares the given task names. *)
Definition info (names : list string) (usesConfig : bool)
    : pluginapi.PluginInfo :=
  mkPluginInfo
    (λ exec assets, (λ n, mkTask n exec assets) <$> names)
    usesConfig
    (λ exec assets,
       if usesConfig then Some (mkUpgradeConfigTask "upgrade" exec assets)
       else None).

(** Resolution fails for the version "missing" and for no other. *)
#[export] Instance collaborators : Collaborators Disk := {|
  IndentSpaces := 4;
  Locator_String := locatorText;
  fmt_plus_v := locatorText;
  fmt_q := λ s, quote +:+ s +:+ quote;
  filepath_Join := λ a b, a +:+ "/" +:+ b;
  ResourceDirs := λ _, Ok ("plugins", "assets", "downloads");
  PluginPath := λ dir l, dir +:+ "/" +:+ Product l +:+ "-" +:+ Version l;
  PluginFileName := λ l, Product l +:+ "-" +:+ Version l;
  osarch_Current := mkOSArch "linux" "amd64";
  lockError := λ _ (d : Disk), if d.1 then None else Some "permission denied";
  resolveArtifact := λ p _ _ _ _ (d : Disk),
    let l := Locator_ (LocatorWithChecksums_ p) in
    if decide (Version l = "missing")
    then (d, Some ("no resolver supplied " +:+ locatorText l))
    else ((d.1, d.2 ++ [l]), None);
  InfoFromPlugin_ext := λ path (d : Disk), (d, Ok (info [path] false));
  ResolveAssets_ext := λ _ _ assets _ _ (d : Disk),
    (d, Ok ((λ a, Locator_ (LocatorWithChecksums_ a)) <$> assets));
  marshalPluginsInfoJSON := λ _, Ok [Byte.x7b; Byte.x7d];
  unmarshalPluginsInfoJSON := λ data,
    match data with
    | [Byte.x01] =>
        (Some {[ mkLocator "g1" "p1" "1.0" :=
                   mkPluginInfoWithAssets (info ["build"] false) [];
                 mkLocator "g1" "p1" "2.0" :=
                   mkPluginInfoWithAssets (info ["test"] false) [] ]},
         None)
    | _ => (None, Some "unexpected end of JSON input")
    end;
  renameError := λ _ _, None;
|}.

Definition g1p1v1 : Locator := mkLocator "g1" "p1" "1.0".
Definition g1p1v2 : Locator := mkLocator "g1" "p1" "2.0".
Definition g2p1v1 : Locator := mkLocator "g2" "p1" "1.0".
Definition g3p3v1 : Locator := mkLocator "g3" "p3" "1.0".
Definition g2p2missing : Locator := mkLocator "g2" "p2" "missing".

Definition decl (l : Locator) : SinglePluginParam :=
  mkSinglePluginParam
    (mkLocatorWithResolverParam (mkLocatorWithChecksums l []) None) [].

(** Two versions of one plugin, with disjoint tasks. *)
Definition twoVersions : gmap Locator pluginInfoWithAssets :=
  {[ g1p1v1 := mkPluginInfoWithAssets (info ["build"] false) [];
     g1p1v2 := mkPluginInfoWithAssets (info ["test"] false) [] ]}.

(** Two plugins of different groups with one product name, both using
    configuration, with disjoint tasks. *)
Definition sameProduct : gmap Locator pluginInfoWithAssets :=
  {[ g1p1v1 := mkPluginInfoWithAssets (info ["build"] true) [];
     g2p1v1 := mkPluginInfoWithAssets (info ["test"] true) [] ]}.

(** Two unrelated plugins that share the tasks "fmt" and "build". *)
Definition sharedTasks : gmap Locator pluginInfoWithAssets :=
  {[ g1p1v1 := mkPluginInfoWithAssets (info ["test"; "fmt"; "build"] false) [];
     g3p3v1 := mkPluginInfoWithAssets (info ["build"; "lint"; "fmt"] false) [] ]}.

(** Three declarations, the second of which cannot be resolved. *)
Definition threeDecls : PluginsParam :=
  mkPluginsParam [] [decl g1p1v1; decl g2p2missing; decl g3p3v1].

Definition emptyWorld : World Disk := mkWorld (true, []) ∅ [] [].

Definition readOnlyWorld : World Disk := mkWorld (false, []) ∅ [] [].

(** A world whose cache file holds the two versions of one plugin. *)
Definition cachedWorld : World Disk :=
  mkWorld (true, []) {[ "cache.json" := FileContent [Byte.x01] ]} [] [].

Definition corruptWorld : World Disk :=
  mkWorld (true, []) {[ "cache.json" := FileContent [Byte.x02] ]} [] [].

Definition unreadableWorld : World Disk :=
  mkWorld (true, [])
          {[ "cache.json" := FileUnreadable "permission denied" ]} [] [].

End Demo.

(** ** The verification loops under any enumeration of the map *)

(** The first loop of [verifyPluginCompatibility] with both enumerations made
    explicit: [keys] is the order the outer [range] follows, and
    [orderOf currPlugin] the order the [range] inside
    [verifySinglePluginCompatibility] follows in the call for [currPlugin]. *)
Definition conflictsOf_ranging
    (orderOf : Locator → list (Locator * pluginInfoWithAssets))
    (keys : list Locator) (plugins : gmap Locator pluginInfoWithAssets)
    : option (gmap Locator (gmap Locator error)) :=
  rangeM (λ currPlugin conflicts,
            currConflicts ←
              verifySinglePluginCompatibility_in (orderOf currPlugin)
                                                 currPlugin plugins;
            if decide (size currConflicts = 0) then Some conflicts
            else Some (<[currPlugin := currConflicts]> conflicts))
         keys ∅.

(** ** A second concrete world, whose cache codec round-trips *)

Module DemoWarm.

Import Demo.

(** What resolving [g1p1v1] and [g3p3v1] gives in the demo world. *)
Definition resolvedTwo : gmap Locator pluginInfoWithAssets :=
  {[ g1p1v1 := mkPluginInfoWithAssets (info ["plugins/p1-1.0"] false) [];
     g3p3v1 := mkPluginInfoWithAssets (info ["plugins/p3-1.0"] false) [] ]}.

(** As [Demo.collaborators], with a codec that stores [resolvedTwo] as one
    byte and reads it back, and that reads a zero byte as the nil map. *)
Definition collaborators : Collaborators Disk := {|
  IndentSpaces := 4;
  Locator_String := locatorText;
  fmt_plus_v := locatorText;
  fmt_q := λ s, quote +:+ s +:+ quote;
  filepath_Join := λ a b, a +:+ "/" +:+ b;
  ResourceDirs := λ _, Ok ("plugins", "assets", "downloads");
  PluginPath := λ dir l, dir +:+ "/" +:+ Product l +:+ "-" +:+ Version l;
  PluginFileName := λ l, Product l +:+ "-" +:+ Version l;
  osarch_Current := mkOSArch "linux" "amd64";
  lockError := λ _ (d : Disk), if d.1 then None else Some "permission denied";
  resolveArtifact := λ p _ _ _ _ (d : Disk),
    let l := Locator_ (LocatorWithChecksums_ p) in
    if decide (Version l = "missing")
    then (d, Some ("no resolver supplied " +:+ locatorText l))
    else ((d.1, d.2 ++ [l]), None);
  InfoFromPlugin_ext := λ path (d : Disk), (d, Ok (info [path] false));
  ResolveAssets_ext := λ _ _ assets _ _ (d : Disk),
    (d, Ok ((λ a, Locator_ (LocatorWithChecksums_ a)) <$> assets));
  marshalPluginsInfoJSON := λ _, Ok [Byte.x03];
  unmarshalPluginsInfoJSON := λ data,
    match data with
    | [Byte.x03] => (Some resolvedTwo, None)
    | [Byte.x00] => (None, None)
    | _ => (None, Some "unexpected end of JSON input")
    end;
  renameError := λ _ _, None;
|}.

Definition twoDecls : PluginsParam :=
  mkPluginsParam [] [decl g1p1v1; decl g3p3v1].

(** A world whose cache file decodes to the nil map. *)
Definition nilCacheWorld : World Disk :=
  mkWorld (true, []) {[ "cache.json" := FileContent [Byte.x00] ]} [] [].

End DemoWarm.

(** More inputs for the demo world. *)
Module DemoMore.

Import Demo.

Definition g1p1v3 : Locator := mkLocator "g1" "p1" "3.0".


(** Three unrelated plugins with disjoint tasks. *)
Definition compatible : gmap Locator pluginInfoWithAssets :=
  {[ g1p1v1 := mkPluginInfoWithAssets (info ["build"; "test"] true) [];
     g3p3v1 := mkPluginInfoWithAssets (info ["lint"] false) [] ]}.

End DemoMore.

(** ** The order on Locators is a total order *)

Lemma String_leb_le (s t : string) : String.leb s t ↔ String.le s t.
Proof. done. Qed.

#[global] Instance Locator_le_refl : Reflexive Locator_le.
Proof.
  intros [g p v]. unfold Locator_le, Locator_leb; simpl.
  rewrite !decide_True by done. apply String_leb_le. done.
Qed.

#[global] Instance Locator_le_trans : Transitive Locator_le.
Proof.
  intros [g1 p1 v1] [g2 p2 v2] [g3 p3 v3].
  unfold Locator_le, Locator_leb; simpl.
  repeat case_decide; subst; rewrite ?String_leb_le; intros Hab Hbc;
    try done; try (by etrans);
    try (exfalso; match goal with
         | Hne : ?a ≠ ?b |- _ => apply Hne; by apply (anti_symm String.le)
         end).
Qed.

#[global] Instance Locator_le_antisym : AntiSymm (=) Locator_le.
Proof.
  intros [g1 p1 v1] [g2 p2 v2].
  unfold Locator_le, Locator_leb; simpl.
  repeat case_decide; subst; rewrite ?String_leb_le; intros Hab Hbc;
    try done;
    try (f_equal; by apply (anti_symm String.le));
    exfalso; match goal with
         | Hne : ?a ≠ ?b |- _ => apply Hne; by apply (anti_symm String.le)
         end.
Qed.

#[global] Instance Locator_le_total : Total Locator_le.
Proof.
  intros [g1 p1 v1] [g2 p2 v2].
  unfold Locator_le, Locator_leb; simpl.
  repeat case_decide; subst; rewrite ?String_leb_le; try done;
    apply (total String.le).
Qed.

Lemma SortLocators_Sorted (locs : list Locator) :
  StronglySorted Locator_le (SortLocators locs).
Proof. apply StronglySorted_merge_sort; apply _. Qed.

Lemma SortLocators_Permutation (locs : list Locator) :
  SortLocators locs ≡ₚ locs.
Proof. apply merge_sort_Permutation. Qed.

(** Sorting forgets the order in which the keys were enumerated. *)
Lemma SortLocators_order_irrelevant (l1 l2 : list Locator) :
  l1 ≡ₚ l2 → SortLocators l1 = SortLocators l2.
Proof.
  intros Hp. apply (StronglySorted_unique Locator_le);
    [apply SortLocators_Sorted .. |].
  by rewrite !SortLocators_Permutation.
Qed.

Lemma elem_of_SortLocators (locs : list Locator) (k : Locator) :
  k ∈ SortLocators locs ↔ k ∈ locs.
Proof. by rewrite SortLocators_Permutation. Qed.

(** ** Verification: what is reported for an ordered pair *)

Lemma rangeM_app {A S : Type} (body : A → S → option S) (l1 l2 : list A) (s : S) :
  rangeM body (l1 ++ l2) s = rangeM body l1 s ≫= rangeM body l2.
Proof.
  revert s. induction l1 as [|x l1 IH]; intros s; simpl; [done|].
  destruct (body x s) as [s'|]; simpl; [apply IH | done].
Qed.

Lemma verifyOther_pairConflict (plugin : Locator)
    (plugins : gmap Locator pluginInfoWithAssets) (curr : pluginInfoWithAssets)
    (o : Locator) (oi : pluginInfoWithAssets) (errs : gmap Locator error) :
  plugins !! plugin = Some curr →
  verifyOther plugin plugins (o, oi) errs =
    Some (match pairConflict plugin curr o oi with
          | Some e => <[o := e]> errs
          | None => errs
          end).
Proof.
  intros Hcurr. unfold verifyOther, pairConflict.
  destruct (decide (o = plugin)); [done|].
  destruct (decide (Group o = Group plugin ∧ Product o = Product plugin)); [done|].
  rewrite Hcurr. simpl.
  destruct (decide (Product plugin = Product o)); simpl.
  - rewrite bool_decide_eq_true_2 by done. simpl.
    destruct (UsesConfig (PluginInfo curr) && UsesConfig (PluginInfo oi)); [done|].
    by destruct (decide (length (commonTasksOf curr oi) ≠ 0)).
  - rewrite bool_decide_eq_false_2 by done. simpl.
    by destruct (decide (length (commonTasksOf curr oi) ≠ 0)).
Qed.

Lemma rangeM_verifyOther (plugin : Locator)
    (plugins : gmap Locator pluginInfoWithAssets) (curr : pluginInfoWithAssets)
    (entries : list (Locator * pluginInfoWithAssets)) (errs : gmap Locator error) :
  plugins !! plugin = Some curr →
  NoDup entries.*1 →
  ∃ errs', rangeM (verifyOther plugin plugins) entries errs = Some errs'
    ∧ (∀ o oi, (o, oi) ∈ entries →
         errs' !! o = match pairConflict plugin curr o oi with
                      | Some e => Some e
                      | None => errs !! o
                      end)
    ∧ (∀ o, o ∉ entries.*1 → errs' !! o = errs !! o).
Proof.
  intros Hcurr. revert errs.
  induction entries as [|[o1 oi1] entries IH]; intros errs Hnd.
  - exists errs. split; [done|]. split; [|done].
    intros o oi Hin. by apply elem_of_nil in Hin.
  - rewrite fmap_cons in Hnd. apply NoDup_cons in Hnd as [Hfresh Hnd].
    simpl in Hfresh. cbn [rangeM].
    rewrite (verifyOther_pairConflict _ _ curr) by done. cbn [mbind option_bind].
    destruct (IH (match pairConflict plugin curr o1 oi1 with
                  | Some e => <[o1 := e]> errs
                  | None => errs
                  end) Hnd) as (errs' & Hrun & Hin & Hout).
    exists errs'. split; [done|]. split.
    + intros o oi [Heq|Hel]%elem_of_cons.
      * injection Heq as -> ->. rewrite Hout by done.
        destruct (pairConflict plugin curr o1 oi1); [|done].
        by rewrite lookup_insert_eq.
      * rewrite (Hin o oi Hel).
        assert (o ≠ o1) as Hne.
        { intros ->. apply Hfresh. apply list_elem_of_fmap. by exists (o1, oi). }
        destruct (pairConflict plugin curr o oi); [done|].
        destruct (pairConflict plugin curr o1 oi1); [|done].
        by rewrite lookup_insert_ne.
    + intros o Hnot. rewrite fmap_cons in Hnot.
      apply not_elem_of_cons in Hnot as [Hne Hnot]. simpl in Hne.
      rewrite Hout by done.
      destruct (pairConflict plugin curr o1 oi1); [|done].
      by rewrite lookup_insert_ne.
Qed.

(** For a key of [plugins], [verifySinglePluginCompatibility] does not panic,
    and it records for every other plugin what [pairConflict] says, in
    whatever order the loop enumerates the map. *)
Lemma verifySinglePluginCompatibility_in_lookup
    (entries : list (Locator * pluginInfoWithAssets)) (plugin : Locator)
    (plugins : gmap Locator pluginInfoWithAssets) (curr : pluginInfoWithAssets) :
  plugins !! plugin = Some curr →
  entries ≡ₚ map_to_list plugins →
  ∃ errs, verifySinglePluginCompatibility_in entries plugin plugins = Some errs
    ∧ ∀ o, errs !! o = plugins !! o ≫= pairConflict plugin curr o.
Proof.
  intros Hcurr Hperm.
  assert (NoDup entries.*1) as Hnd.
  { rewrite Hperm. apply NoDup_fst_map_to_list. }
  destruct (rangeM_verifyOther plugin plugins curr entries ∅ Hcurr Hnd)
    as (errs & Hrun & Hin & Hout).
  exists errs. split; [done|]. intros o.
  destruct (plugins !! o) as [oi|] eqn:Ho; simpl.
  - rewrite (Hin o oi).
    + destruct (pairConflict plugin curr o oi); [done | apply lookup_empty].
    + rewrite Hperm. by apply elem_of_map_to_list.
  - rewrite Hout; [apply lookup_empty|].
    intros ([o' oi] & -> & Hel)%list_elem_of_fmap. simpl in Ho.
    rewrite Hperm in Hel. apply elem_of_map_to_list in Hel. congruence.
Qed.

Lemma verifySinglePluginCompatibility_lookup (plugin : Locator)
    (plugins : gmap Locator pluginInfoWithAssets) (curr : pluginInfoWithAssets) :
  plugins !! plugin = Some curr →
  ∃ errs, verifySinglePluginCompatibility plugin plugins = Some errs
    ∧ ∀ o, errs !! o = plugins !! o ≫= pairConflict plugin curr o.
Proof.
  intros Hcurr. by apply verifySinglePluginCompatibility_in_lookup.
Qed.

(** The order in which [range] enumerates the map is immaterial. *)
Lemma verifySinglePluginCompatibility_order_irrelevant
    (entries : list (Locator * pluginInfoWithAssets)) (plugin : Locator)
    (plugins : gmap Locator pluginInfoWithAssets) :
  is_Some (plugins !! plugin) →
  entries ≡ₚ map_to_list plugins →
  verifySinglePluginCompatibility_in entries plugin plugins
  = verifySinglePluginCompatibility plugin plugins.
Proof.
  intros [curr Hcurr] Hperm.
  destruct (verifySinglePluginCompatibility_in_lookup entries plugin plugins
              curr Hcurr Hperm) as (e1 & -> & H1).
  destruct (verifySinglePluginCompatibility_lookup plugin plugins curr Hcurr)
    as (e2 & -> & H2).
  f_equal. apply map_eq. intros o. by rewrite H1, H2.
Qed.

Lemma conflictsOf_in_lookup (keys : list Locator)
    (plugins : gmap Locator pluginInfoWithAssets) :
  NoDup keys →
  (∀ k, k ∈ keys → is_Some (plugins !! k)) →
  ∃ conflicts, conflictsOf_in keys plugins = Some conflicts
    ∧ ∀ a, conflicts !! a =
        if decide (a ∈ keys) then
          errs ← verifySinglePluginCompatibility a plugins;
          if decide (size errs = 0) then None else Some errs
        else None.
Proof.
  unfold conflictsOf_in.
  induction keys as [|k keys IH] using rev_ind; intros Hnd Hkeys.
  - exists ∅. split; [done|]. intros a. rewrite lookup_empty.
    destruct (decide (a ∈ [])) as [Hin|]; [by apply elem_of_nil in Hin | done].
  - apply NoDup_app in Hnd as (Hnd & Hfresh & _).
    destruct IH as (conflicts & Hrun & Hrep); [done| |].
    { intros k' Hk'. apply Hkeys. apply elem_of_app. by left. }
    destruct (Hkeys k) as [curr Hcurr]. { apply elem_of_app. right. by left. }
    destruct (verifySinglePluginCompatibility_lookup k plugins curr Hcurr)
      as (errs & Hsingle & Herrs).
    rewrite rangeM_app, Hrun. cbn [mbind option_bind rangeM].
    rewrite Hsingle. cbn [mbind option_bind].
    assert (k ∉ keys) as Hk.
    { intros Hin. apply (Hfresh k Hin). by left. }
    exists (if decide (size errs = 0) then conflicts else <[k := errs]> conflicts).
    split; [by destruct (decide (size errs = 0))|]. intros a.
    destruct (decide (a = k)) as [->|Hne].
    + destruct (decide (k ∈ keys ++ [k])) as [_|Hn];
        [|exfalso; apply Hn, elem_of_app; right; by left].
      rewrite Hsingle. cbn [mbind option_bind].
      destruct (decide (size errs = 0)) as [Hsz|Hsz].
      * rewrite Hrep. by destruct (decide (k ∈ keys)).
      * by rewrite lookup_insert_eq.
    + assert ((if decide (size errs = 0) then conflicts
               else <[k := errs]> conflicts) !! a = conflicts !! a) as ->.
      { destruct (decide (size errs = 0)); [done|]. by rewrite lookup_insert_ne. }
      rewrite Hrep. destruct (decide (a ∈ keys)) as [Hin|Hnin].
      * destruct (decide (a ∈ keys ++ [k])) as [_|Hn]; [done|].
        exfalso. apply Hn, elem_of_app. by left.
      * destruct (decide (a ∈ keys ++ [k])) as [Hl|_]; [|done].
        apply elem_of_app in Hl as [?|Hl]; [done|].
        apply list_elem_of_singleton in Hl. done.
Qed.

(** The ConflictReport does not depend on the order in which the outer
    loop enumerates the map either. *)
Lemma conflictsOf_order_irrelevant (keys : list Locator)
    (plugins : gmap Locator pluginInfoWithAssets) :
  keys ≡ₚ elements (dom plugins) →
  conflictsOf_in keys plugins = conflictsOf plugins.
Proof.
  intros Hperm.
  assert (NoDup keys) as Hnd by (rewrite Hperm; apply NoDup_elements).
  assert (∀ k, k ∈ keys → is_Some (plugins !! k)) as Hkeys.
  { intros k. rewrite Hperm, elem_of_elements. apply elem_of_dom. }
  destruct (conflictsOf_in_lookup keys plugins Hnd Hkeys) as (c1 & -> & H1).
  destruct (conflictsOf_in_lookup (elements (dom plugins)) plugins)
    as (c2 & Hc2 & H2).
  { apply NoDup_elements. }
  { intros k. rewrite elem_of_elements. apply elem_of_dom. }
  unfold conflictsOf. rewrite Hc2. f_equal. apply map_eq. intros a.
  rewrite H1, H2.
  destruct (decide (a ∈ keys)) as [Hin|Hnin];
    destruct (decide (a ∈ elements (dom plugins))) as [Hin'|Hnin'];
    try done; exfalso.
  - apply Hnin'. by rewrite <- Hperm.
  - apply Hnin. by rewrite Hperm.
Qed.

(** [conflictsOf] never panics; the reason it holds for an ordered pair of
    resolved plugins is the one [pairConflict] gives, and it holds none for
    other pairs. *)
Lemma conflictsOf_reported (plugins : gmap Locator pluginInfoWithAssets) :
  ∃ conflicts, conflictsOf plugins = Some conflicts
    ∧ (∀ a, conflicts !! a ≠ Some ∅)
    ∧ ∀ a b, reported conflicts a b =
        curr ← plugins !! a; other ← plugins !! b; pairConflict a curr b other.
Proof.
  destruct (conflictsOf_in_lookup (elements (dom plugins)) plugins)
    as (conflicts & Hrun & Hlook).
  { apply NoDup_elements. }
  { intros k. rewrite elem_of_elements. apply elem_of_dom. }
  exists conflicts. split; [done|]. split.
  - intros a. rewrite Hlook. destruct (decide (a ∈ elements (dom plugins))); [|done].
    destruct (verifySinglePluginCompatibility a plugins) as [errs|]; [|done].
    cbn [mbind option_bind].
    destruct (decide (size errs = 0)) as [|Hsz]; [done|].
    intros [= ->]. by apply Hsz.
  - intros a b. unfold reported. rewrite Hlook.
    destruct (plugins !! a) as [curr|] eqn:Ha.
    + destruct (decide (a ∈ elements (dom plugins))) as [_|Hn].
      2:{ exfalso. apply Hn. rewrite elem_of_elements. apply elem_of_dom. eauto. }
      destruct (verifySinglePluginCompatibility_lookup a plugins curr Ha)
        as (errs & -> & Herrs).
      cbn [mbind option_bind].
      destruct (decide (size errs = 0)) as [Hsz|Hsz].
      * apply map_size_empty_iff in Hsz. subst errs.
        cbn [mbind option_bind]. rewrite <- Herrs. by rewrite lookup_empty.
      * cbn [mbind option_bind]. apply Herrs.
    + destruct (decide (a ∈ elements (dom plugins))) as [Hin|_]; [|done].
      apply elem_of_elements, elem_of_dom in Hin as [? ?]. congruence.
Qed.

(** A ConflictReport without empty inner maps is determined by the reasons
    it holds. *)
Lemma reported_ext (c1 c2 : gmap Locator (gmap Locator error)) :
  (∀ a, c1 !! a ≠ Some ∅) → (∀ a, c2 !! a ≠ Some ∅) →
  (∀ a b, reported c1 a b = reported c2 a b) → c1 = c2.
Proof.
  intros Hne1 Hne2 Hrep. apply map_eq. intros a.
  specialize (Hne1 a). specialize (Hne2 a).
  assert (∀ b, reported c1 a b = reported c2 a b) as Hab by auto.
  unfold reported in Hab.
  destruct (c1 !! a) as [m1|], (c2 !! a) as [m2|]; cbn [mbind option_bind] in Hab.
  - f_equal. by apply map_eq.
  - exfalso. apply Hne1. f_equal. apply map_eq. intros b.
    by rewrite Hab, lookup_empty.
  - exfalso. apply Hne2. f_equal. apply map_eq. intros b.
    by rewrite <- Hab, lookup_empty.
  - done.
Qed.

Lemma reported_Some_size (conflicts : gmap Locator (gmap Locator error))
    (a b : Locator) (e : error) :
  reported conflicts a b = Some e → size conflicts ≠ 0.
Proof.
  unfold reported. intros Hrep Hsz. apply map_size_empty_iff in Hsz.
  subst conflicts. by rewrite lookup_empty in Hrep.
Qed.

(** ** The common task names *)

Lemma sort_Strings_Sorted (l : list string) :
  StronglySorted String.le (sort_Strings l).
Proof. apply StronglySorted_merge_sort; apply _. Qed.

Lemma elem_of_sort_Strings (l : list string) (n : string) :
  n ∈ sort_Strings l ↔ n ∈ l.
Proof. unfold sort_Strings. by rewrite merge_sort_Permutation. Qed.

Lemma StronglySorted_filter {A : Type} (R : relation A) (P : A → Prop)
    `{∀ x, Decision (P x)} (l : list A) :
  StronglySorted R l → StronglySorted R (filter P l).
Proof.
  induction 1 as [|x l Hl IH Hx]; [constructor|].
  rewrite filter_cons. destruct (decide (P x)); [|done].
  constructor; [done|]. apply Forall_forall. intros y Hy.
  apply list_elem_of_filter in Hy as [_ Hy].
  by apply (proj1 (Forall_forall _ _) Hx).
Qed.

Lemma commonTasksOf_Sorted (curr other : pluginInfoWithAssets) :
  StronglySorted String.le (commonTasksOf curr other).
Proof. apply StronglySorted_filter, sort_Strings_Sorted. Qed.

Lemma elem_of_commonTasksOf (curr other : pluginInfoWithAssets) (n : string) :
  n ∈ commonTasksOf curr other ↔ n ∈ taskNames curr ∧ n ∈ taskNames other.
Proof.
  unfold commonTasksOf.
  rewrite list_elem_of_filter, elem_of_sort_Strings, elem_of_list_to_set.
  tauto.
Qed.

Lemma commonTasksOf_nonempty (curr other : pluginInfoWithAssets) :
  length (commonTasksOf curr other) ≠ 0
  ↔ ∃ n, n ∈ taskNames curr ∧ n ∈ taskNames other.
Proof.
  split.
  - destruct (commonTasksOf curr other) as [|n l] eqn:Hc; [done|].
    intros _. exists n. apply elem_of_commonTasksOf. rewrite Hc. by left.
  - intros [n Hn%elem_of_commonTasksOf].
    destruct (commonTasksOf curr other); [by apply elem_of_nil in Hn | done].
Qed.

(** ** The three reasons are different texts *)

Lemma errConflictingTasks_ne_errDifferentVersion (l : list string) :
  errConflictingTasks l ≠ errDifferentVersion.
Proof. unfold errConflictingTasks, errDifferentVersion. cbv [String.append]. discriminate. Qed.

Lemma errConflictingTasks_ne_errConfigCollision (l : list string) :
  errConflictingTasks l ≠ errConfigCollision.
Proof. unfold errConflictingTasks, errConfigCollision. cbv [String.append]. discriminate. Qed.

Lemma errDifferentVersion_ne_errConfigCollision :
  errDifferentVersion ≠ errConfigCollision.
Proof. discriminate. Qed.

(** ** The three rules, in the order the code tries them *)

Lemma pairConflict_different_version (plugin other : Locator)
    (curr oi : pluginInfoWithAssets) :
  other ≠ plugin → Group other = Group plugin → Product other = Product plugin →
  pairConflict plugin curr other oi = Some errDifferentVersion.
Proof.
  intros Hne Hg Hp. unfold pairConflict.
  rewrite decide_False by done. by rewrite decide_True.
Qed.

Lemma pairConflict_config_collision (plugin other : Locator)
    (curr oi : pluginInfoWithAssets) :
  Group other ≠ Group plugin → Product plugin = Product other →
  UsesConfig (PluginInfo curr) = true → UsesConfig (PluginInfo oi) = true →
  pairConflict plugin curr other oi = Some errConfigCollision.
Proof.
  intros Hg Hp Hc Ho. unfold pairConflict.
  rewrite decide_False by (by intros ->).
  rewrite decide_False by (by intros [? _]).
  by rewrite bool_decide_eq_true_2, Hc, Ho.
Qed.

Lemma pairConflict_tasks (plugin other : Locator)
    (curr oi : pluginInfoWithAssets) :
  other ≠ plugin →
  ¬ (Group other = Group plugin ∧ Product other = Product plugin) →
  ¬ (Product plugin = Product other
     ∧ UsesConfig (PluginInfo curr) = true ∧ UsesConfig (PluginInfo oi) = true) →
  pairConflict plugin curr other oi
  = if decide (length (commonTasksOf curr oi) ≠ 0)
    then Some (errConflictingTasks (commonTasksOf curr oi)) else None.
Proof.
  intros Hne Hdup Hcfg. unfold pairConflict.
  rewrite !decide_False by done.
  destruct (bool_decide (Product plugin = Product other)) eqn:Hp; [|done].
  apply bool_decide_eq_true in Hp.
  destruct (UsesConfig (PluginInfo curr)) eqn:Hc; [|done].
  destruct (UsesConfig (PluginInfo oi)) eqn:Ho; [|done].
  exfalso. by apply Hcfg.
Qed.

Section plugins_correct.

Context {Disk : Type} `{!Collaborators Disk}.

Lemma verifyPluginCompatibility_conflictsOf
    (plugins : gmap Locator pluginInfoWithAssets)
    (conflicts : gmap Locator (gmap Locator error)) :
  conflictsOf plugins = Some conflicts →
  verifyPluginCompatibility plugins
  = Some (if decide (size conflicts = 0) then None
          else Some (conflictsErrString conflicts)).
Proof.
  intros Hc. unfold verifyPluginCompatibility. rewrite Hc.
  cbn [mbind option_bind]. by destruct (decide (size conflicts = 0)).
Qed.

(** Verification of a map never panics: every plugin it looks up is a key. *)
Lemma verifyPluginCompatibility_total
    (plugins : gmap Locator pluginInfoWithAssets) :
  is_Some (verifyPluginCompatibility plugins).
Proof.
  destruct (conflictsOf_reported plugins) as (conflicts & Hc & _).
  rewrite (verifyPluginCompatibility_conflictsOf _ _ Hc). eauto.
Qed.

Lemma verifyPluginCompatibility_fails
    (plugins : gmap Locator pluginInfoWithAssets)
    (conflicts : gmap Locator (gmap Locator error)) (a b : Locator) (e : error) :
  conflictsOf plugins = Some conflicts →
  reported conflicts a b = Some e →
  verifyPluginCompatibility plugins = Some (Some (conflictsErrString conflicts)).
Proof.
  intros Hc Hrep. rewrite (verifyPluginCompatibility_conflictsOf _ _ Hc).
  rewrite decide_False; [done|]. by eapply reported_Some_size.
Qed.

(** C2. Two resolved plugins [A] and [B] of the same group and product
    and of different versions make verification fail, and the report holds
    the pair once, [B] under [A] and [A] under [B], each time with the
    single reason "different version of the same plugin" and whatever
    tasks the two declare.  When they are the only two plugins, that is the
    whole report. *)
Theorem C2_different_version_of_same_plugin
    (plugins : gmap Locator pluginInfoWithAssets) (A B : Locator)
    (infoA infoB : pluginInfoWithAssets) :
  plugins !! A = Some infoA → plugins !! B = Some infoB →
  Group A = Group B → Product A = Product B → Version A ≠ Version B →
  ∃ conflicts,
    conflictsOf plugins = Some conflicts
    ∧ verifyPluginCompatibility plugins
      = Some (Some (conflictsErrString conflicts))
    ∧ reported conflicts A B = Some errDifferentVersion
    ∧ reported conflicts B A = Some errDifferentVersion
    ∧ (dom plugins = {[A; B]} →
       conflicts = {[A := {[B := errDifferentVersion]};
                     B := {[A := errDifferentVersion]}]}).
Proof.
  intros HA HB Hg Hp Hv.
  assert (A ≠ B) as Hne by (by intros ->).
  destruct (conflictsOf_reported plugins) as (conflicts & Hc & Hnonempty & Hrep).
  assert (reported conflicts A B = Some errDifferentVersion) as HAB.
  { rewrite Hrep, HA, HB. cbn [mbind option_bind].
    by apply pairConflict_different_version. }
  assert (reported conflicts B A = Some errDifferentVersion) as HBA.
  { rewrite Hrep, HA, HB. cbn [mbind option_bind].
    by apply pairConflict_different_version. }
  exists conflicts. split; [done|]. split.
  { by eapply verifyPluginCompatibility_fails. }
  split; [done|]. split; [done|].
  intros Hdom. apply reported_ext; [done| |].
  - intros a. destruct (decide (a = A)) as [->|HaA].
    { rewrite lookup_insert_eq. intros Hm.
      by apply (inj Some), map_non_empty_singleton in Hm. }
    rewrite lookup_insert_ne by done.
    destruct (decide (a = B)) as [->|HaB].
    { rewrite lookup_singleton_eq. intros Hm.
      by apply (inj Some), map_non_empty_singleton in Hm. }
    by rewrite lookup_singleton_ne.
  - assert (∀ x, is_Some (plugins !! x) → x = A ∨ x = B) as Hkeys.
    { intros x Hx%elem_of_dom. rewrite Hdom in Hx. set_solver. }
    intros a b. rewrite Hrep. unfold reported.
    destruct (decide (a = A)) as [->|HaA].
    { rewrite lookup_insert_eq, HA. cbn [mbind option_bind].
      destruct (decide (b = B)) as [->|HbB].
      - rewrite HB, lookup_singleton_eq. cbn [mbind option_bind].
        by apply pairConflict_different_version.
      - rewrite lookup_singleton_ne by done.
        destruct (plugins !! b) as [ib|] eqn:Hb; [|done].
        cbn [mbind option_bind].
        destruct (Hkeys b) as [->| ->]; [eauto| |done].
        unfold pairConflict. by rewrite decide_True. }
    rewrite lookup_insert_ne by done.
    destruct (decide (a = B)) as [->|HaB].
    { rewrite lookup_singleton_eq, HB. cbn [mbind option_bind].
      destruct (decide (b = A)) as [->|HbA].
      - rewrite HA, lookup_singleton_eq. cbn [mbind option_bind].
        by apply pairConflict_different_version.
      - rewrite lookup_singleton_ne by done.
        destruct (plugins !! b) as [ib|] eqn:Hb; [|done].
        cbn [mbind option_bind].
        destruct (Hkeys b) as [->| ->]; [eauto|done|].
        unfold pairConflict. by rewrite decide_True. }
    rewrite lookup_singleton_ne by done.
    destruct (plugins !! a) as [ia|] eqn:Ha; [|done].
    destruct (Hkeys a) as [->| ->]; [eauto|done..].
Qed.

(** C3. For two distinct resolved plugins [A] and [B]: the names reported
    are the sorted task names of [A] that [B] declares too, so a name is
    among them exactly when both declare it.  When neither the
    duplicate-product rule nor the config-collision rule flags the pair and
    some name is declared by both, the reason for [(A, B)] is the task
    collision that lists these names; when no name is declared by both,
    nothing is reported.  When an earlier rule flags the pair, the reason
    is never a task collision. *)
Theorem C3_task_name_collision
    (plugins : gmap Locator pluginInfoWithAssets) (A B : Locator)
    (infoA infoB : pluginInfoWithAssets) :
  plugins !! A = Some infoA → plugins !! B = Some infoB → A ≠ B →
  ∃ conflicts,
    conflictsOf plugins = Some conflicts
    ∧ StronglySorted String.le (commonTasksOf infoA infoB)
    ∧ (∀ n, n ∈ commonTasksOf infoA infoB
            ↔ n ∈ taskNames infoA ∧ n ∈ taskNames infoB)
    ∧ (¬ (Group A = Group B ∧ Product A = Product B) →
       ¬ (Product A = Product B ∧ UsesConfig (PluginInfo infoA) = true
          ∧ UsesConfig (PluginInfo infoB) = true) →
       ((∃ n, n ∈ taskNames infoA ∧ n ∈ taskNames infoB) →
        reported conflicts A B
        = Some (errConflictingTasks (commonTasksOf infoA infoB)))
       ∧ (¬ (∃ n, n ∈ taskNames infoA ∧ n ∈ taskNames infoB) →
          reported conflicts A B = None))
    ∧ ((Group A = Group B ∧ Product A = Product B)
       ∨ (Product A = Product B ∧ UsesConfig (PluginInfo infoA) = true
          ∧ UsesConfig (PluginInfo infoB) = true) →
       ∃ e, reported conflicts A B = Some e
            ∧ ∀ commonTasks, e ≠ errConflictingTasks commonTasks).
Proof.
  intros HA HB Hne.
  destruct (conflictsOf_reported plugins) as (conflicts & Hc & _ & Hrep).
  exists conflicts. split; [done|].
  split; [apply commonTasksOf_Sorted|].
  split; [apply elem_of_commonTasksOf|].
  assert (reported conflicts A B = pairConflict A infoA B infoB) as ->.
  { by rewrite Hrep, HA, HB. }
  split.
  - intros Hdup Hcfg.
    rewrite pairConflict_tasks; [|done|intros [? ?]; by apply Hdup|done].
    split.
    + intros Hex%commonTasksOf_nonempty. by rewrite decide_True.
    + intros Hno. rewrite decide_False; [done|].
      by rewrite commonTasksOf_nonempty.
  - intros [[Hg Hp]|(Hp & HcA & HcB)].
    + exists errDifferentVersion. split.
      * by apply pairConflict_different_version.
      * intros l Heq. by apply (errConflictingTasks_ne_errDifferentVersion l).
    + destruct (decide (Group B = Group A)) as [Hg|Hg].
      * exists errDifferentVersion. split.
        -- by apply pairConflict_different_version.
        -- intros l Heq. by apply (errConflictingTasks_ne_errDifferentVersion l).
      * exists errConfigCollision. split.
        -- by apply pairConflict_config_collision.
        -- intros l Heq. by apply (errConflictingTasks_ne_errConfigCollision l).
Qed.

(** C4. Two resolved plugins [A] and [B] of different groups and of the
    same product name: when both use configuration, the report holds the
    config collision for the pair, in both directions, and verification
    fails, whatever tasks the two declare; when at most one of them uses
    configuration, no config collision is reported for the pair. *)
Theorem C4_config_collision
    (plugins : gmap Locator pluginInfoWithAssets) (A B : Locator)
    (infoA infoB : pluginInfoWithAssets) :
  plugins !! A = Some infoA → plugins !! B = Some infoB →
  Group A ≠ Group B → Product A = Product B →
  ∃ conflicts,
    conflictsOf plugins = Some conflicts
    ∧ (UsesConfig (PluginInfo infoA) = true →
       UsesConfig (PluginInfo infoB) = true →
       reported conflicts A B = Some errConfigCollision
       ∧ reported conflicts B A = Some errConfigCollision
       ∧ verifyPluginCompatibility plugins
         = Some (Some (conflictsErrString conflicts)))
    ∧ (¬ (UsesConfig (PluginInfo infoA) = true
          ∧ UsesConfig (PluginInfo infoB) = true) →
       reported conflicts A B ≠ Some errConfigCollision
       ∧ reported conflicts B A ≠ Some errConfigCollision).
Proof.
  intros HA HB Hg Hp.
  assert (A ≠ B) as Hne by (by intros ->).
  destruct (conflictsOf_reported plugins) as (conflicts & Hc & _ & Hrep).
  exists conflicts. split; [done|].
  assert (reported conflicts A B = pairConflict A infoA B infoB) as HAB.
  { by rewrite Hrep, HA, HB. }
  assert (reported conflicts B A = pairConflict B infoB A infoA) as HBA.
  { by rewrite Hrep, HA, HB. }
  split.
  - intros HcA HcB.
    assert (reported conflicts A B = Some errConfigCollision) as HAB'.
    { rewrite HAB. by apply pairConflict_config_collision. }
    split; [done|]. split.
    + rewrite HBA. by apply pairConflict_config_collision.
    + by eapply verifyPluginCompatibility_fails.
  - intros Hnot. rewrite HAB, HBA.
    rewrite !pairConflict_tasks; try done;
      try (by intros [? _]); try (intros (_ & ? & ?); by apply Hnot).
    split; case_decide; try done; intros [= Heq];
      by eapply errConflictingTasks_ne_errConfigCollision.
Qed.

(** ** resolvePlugins: each iteration is one attempt, recorded *)

Lemma resolveOne_attemptDeclaration (pluginsDir assetsDir downloadsDir : string)
    (osArch : OSArch) (pluginsParam : PluginsParam)
    (plugins : gmap Locator pluginInfoWithAssets)
    (pluginErrors : gmap Locator error) (w : World Disk)
    (currPlugin : SinglePluginParam) :
  resolveOne pluginsDir assetsDir downloadsDir osArch pluginsParam
             (plugins, pluginErrors, w) currPlugin
  = let '(loc, out, w') :=
      attemptDeclaration pluginsDir assetsDir downloadsDir osArch
                         pluginsParam currPlugin w in
    match out with
    | Ok info => (<[loc := info]> plugins, pluginErrors, w')
    | Err err => (plugins, <[loc := err]> pluginErrors, w')
    end.
Proof.
  unfold resolveOne, attemptDeclaration, ResolveAndVerify, declLocator.
  destruct (resolveArtifact _ _ _ _ _ _) as [d [err|]]; [done|].
  cbn [negb].
  destruct (InfoFromPlugin _ _) as [[info|err] w1]; [|done].
  by destruct (ResolveAssets _ _ _ _ _ _) as [[assets|err] w2].
Qed.

Lemma foldl_resolveOne (pluginsDir assetsDir downloadsDir : string)
    (osArch : OSArch) (pluginsParam : PluginsParam)
    (decls : list SinglePluginParam)
    (plugins : gmap Locator pluginInfoWithAssets)
    (pluginErrors : gmap Locator error) (w : World Disk) :
  foldl (resolveOne pluginsDir assetsDir downloadsDir osArch pluginsParam)
        (plugins, pluginErrors, w) decls
  = let '(outs, w') :=
      attemptAll pluginsDir assetsDir downloadsDir osArch pluginsParam
                 decls w in
    (foldl (λ m kv, <[kv.1 := kv.2]> m) plugins (successesOf outs),
     foldl (λ m kv, <[kv.1 := kv.2]> m) pluginErrors (failuresOf outs),
     w').
Proof.
  revert plugins pluginErrors w.
  induction decls as [|currPlugin decls IH]; intros plugins pluginErrors w.
  - done.
  - cbn [foldl attemptAll]. rewrite resolveOne_attemptDeclaration.
    destruct (attemptDeclaration _ _ _ _ _ _ _) as [[loc out] w1].
    destruct out as [info|err]; rewrite IH;
      by destruct (attemptAll _ _ _ _ _ _ _) as [outs w2].
Qed.

(** ** Assignments to a map in list order *)

Lemma assignAll_snoc {V : Type} (l : list (Locator * V)) (kv : Locator * V) :
  assignAll (l ++ [kv]) = <[kv.1 := kv.2]> (assignAll l).
Proof. unfold assignAll. by rewrite foldl_snoc. Qed.

Lemma assignAll_lookup_Some {V : Type} (l : list (Locator * V))
    (k : Locator) (v : V) :
  assignAll l !! k = Some v → (k, v) ∈ l.
Proof.
  induction l as [|[k' v'] l IH] using rev_ind.
  - unfold assignAll. cbn [foldl]. by rewrite lookup_empty.
  - rewrite assignAll_snoc. cbn [fst snd].
    destruct (decide (k' = k)) as [->|Hne].
    + rewrite lookup_insert_eq. intros [= ->].
      apply elem_of_app. right. by left.
    + rewrite lookup_insert_ne by done. intros Hl.
      apply elem_of_app. left. by apply IH.
Qed.

Lemma assignAll_is_Some {V : Type} (l : list (Locator * V)) (k : Locator) :
  is_Some (assignAll l !! k) ↔ k ∈ l.*1.
Proof.
  induction l as [|[k' v'] l IH] using rev_ind.
  - unfold assignAll. cbn [foldl]. rewrite lookup_empty.
    split; [by intros [? ?] | by intros ?%elem_of_nil].
  - rewrite assignAll_snoc, fmap_app, elem_of_app. cbn [fst snd fmap list_fmap].
    destruct (decide (k' = k)) as [->|Hne].
    + rewrite lookup_insert_eq. split; [|by eauto].
      intros _. right. by left.
    + rewrite lookup_insert_ne by done. rewrite IH.
      split; [by left|]. intros [?|Hk]; [done|].
      by apply list_elem_of_singleton in Hk.
Qed.

(** The value kept for a key is the one assigned last. *)
Lemma assignAll_last {V : Type} (l1 l2 : list (Locator * V))
    (k : Locator) (v : V) :
  k ∉ l2.*1 → assignAll (l1 ++ (k, v) :: l2) !! k = Some v.
Proof.
  induction l2 as [|[k' v'] l2 IH] using rev_ind; intros Hk.
  - rewrite assignAll_snoc. apply lookup_insert_eq.
  - rewrite fmap_app, not_elem_of_app in Hk. destruct Hk as [Hk Hk'].
    replace (l1 ++ (k, v) :: l2 ++ [(k', v')])
      with ((l1 ++ (k, v) :: l2) ++ [(k', v')])
      by (by rewrite <- app_assoc).
    rewrite assignAll_snoc. cbn [fst snd].
    rewrite lookup_insert_ne; [by apply IH|].
    intros ->. apply Hk'. by left.
Qed.

Lemma assignAll_empty {V : Type} (l : list (Locator * V)) :
  size (assignAll l) = 0 ↔ l = [].
Proof.
  rewrite map_size_empty_iff. split.
  - destruct l as [|kv l _] using rev_ind; [done|].
    rewrite assignAll_snoc. intros Hm. by apply insert_non_empty in Hm.
  - by intros ->.
Qed.

(** ** Go's [strings.Join] *)

Lemma String_app_assoc (s1 s2 s3 : string) :
  (s1 +:+ s2) +:+ s3 = s1 +:+ (s2 +:+ s3).
Proof.
  induction s1 as [|c s1 IH]; [done|].
  change (String c ((s1 +:+ s2) +:+ s3) = String c (s1 +:+ s2 +:+ s3)).
  by rewrite IH.
Qed.

Lemma String_app_nil_r (s : string) : s +:+ "" = s.
Proof.
  induction s as [|c s IH]; [done|].
  change (String c (s +:+ "") = String c s). by rewrite IH.
Qed.

Lemma String_concat_cons_cons (sep x y : string) (l : list string) :
  String.concat sep (x :: y :: l) = x +:+ sep +:+ String.concat sep (y :: l).
Proof. reflexivity. Qed.

Lemma String_concat_empty_cons (x : string) (l : list string) :
  String.concat "" (x :: l) = x +:+ String.concat "" l.
Proof.
  destruct l as [|y l]; [|reflexivity].
  change (x = x +:+ ""). by rewrite String_app_nil_r.
Qed.

(** Joining a header and parts with a separator puts the separator in
    front of every part. *)
Lemma strings_Join_cons (header sep : string) (parts : list string) :
  strings_Join (header :: parts) sep
  = header +:+ String.concat "" ((λ part, sep +:+ part) <$> parts).
Proof.
  unfold strings_Join. revert header.
  induction parts as [|part parts IH]; intros header.
  - change (header = header +:+ ""). by rewrite String_app_nil_r.
  - rewrite String_concat_cons_cons, IH, fmap_cons.
    by rewrite String_concat_empty_cons, String_app_assoc.
Qed.

Lemma foldl_snoc_fmap {A B : Type} (f : A → B) (init : list B) (l : list A) :
  foldl (λ acc x, acc ++ [f x]) init l = init ++ (f <$> l).
Proof.
  revert init. induction l as [|x l IH]; intros init; cbn [foldl].
  - by rewrite app_nil_r.
  - rewrite IH, fmap_cons. by rewrite <- app_assoc.
Qed.

(** The summary: the header, then for every key of [pluginErrors] in
    Locator order a line feed, the indentation and the reason kept for the
    key. *)
Lemma resolveErrString_lines (pluginErrors : gmap Locator error) :
  resolveErrString pluginErrors
  = ("failed to resolve " +:+ fmt_d (size pluginErrors) +:+ " plugin(s):")
    +:+ String.concat ""
          ((λ k, (LF +:+ strings_Repeat " " IndentSpaces)
                   +:+ (pluginErrors !!! k))
             <$> SortLocators (elements (dom pluginErrors))).
Proof.
  unfold resolveErrString. cbv zeta.
  rewrite (foldl_snoc_fmap (λ k, pluginErrors !!! k)).
  cbn [app]. rewrite strings_Join_cons. by rewrite <- list_fmap_compose.
Qed.

(** ** What resolution does to the world *)

Lemma attemptDeclaration_world (pluginsDir assetsDir downloadsDir : string)
    (osArch : OSArch) (pluginsParam : PluginsParam)
    (currPlugin : SinglePluginParam) (w : World Disk) :
  ∃ out w' evs,
    attemptDeclaration pluginsDir assetsDir downloadsDir osArch pluginsParam
                       currPlugin w
    = (declLocator currPlugin, out, w')
    ∧ files w' = files w ∧ held w' = held w
    ∧ trace w' = trace w ++ EvResolveAndVerify (declLocator currPlugin) :: evs
    ∧ Forall resolutionEvent evs ∧ attempts evs = [].
Proof.
  unfold attemptDeclaration, InfoFromPlugin, ResolveAssets.
  cbn [disk logEvent setDisk files held trace].
  destruct (resolveArtifact _ _ _ _ _ _) as [d [err|]].
  { eexists _, _, []. split; [reflexivity|]. cbn.
    repeat split; constructor. }
  destruct (InfoFromPlugin_ext _ _) as [d1 [info|err]].
  2:{ eexists _, _, [EvInfoFromPlugin _]. split; [reflexivity|]. cbn.
      rewrite <- app_assoc. repeat split; repeat constructor. }
  destruct (ResolveAssets_ext _ _ _ _ _ _) as [d2 [assets|err]];
    eexists _, _, [EvInfoFromPlugin _; EvResolveAssets _];
    (split; [reflexivity|]); cbn; rewrite <- !app_assoc;
    repeat split; repeat constructor.
Qed.

Lemma attempts_app (tr1 tr2 : list Event) :
  attempts (tr1 ++ tr2) = attempts tr1 ++ attempts tr2.
Proof. apply omap_app. Qed.

Lemma attemptAll_world (pluginsDir assetsDir downloadsDir : string)
    (osArch : OSArch) (pluginsParam : PluginsParam)
    (decls : list SinglePluginParam) (w : World Disk) :
  ∃ outs w' evs,
    attemptAll pluginsDir assetsDir downloadsDir osArch pluginsParam decls w
    = (outs, w')
    ∧ outs.*1 = declLocator <$> decls
    ∧ files w' = files w ∧ held w' = held w
    ∧ trace w' = trace w ++ evs
    ∧ Forall resolutionEvent evs
    ∧ attempts evs = declLocator <$> decls.
Proof.
  revert w. induction decls as [|currPlugin decls IH]; intros w.
  - exists [], w, []. cbn. rewrite app_nil_r. repeat split; constructor.
  - cbn [attemptAll].
    destruct (attemptDeclaration_world pluginsDir assetsDir downloadsDir
                osArch pluginsParam currPlugin w)
      as (out & w1 & evs1 & -> & Hf1 & Hh1 & Ht1 & Hr1 & Ha1).
    destruct (IH w1) as (outs & w2 & evs2 & -> & Ho & Hf2 & Hh2 & Ht2 & Hr2 & Ha2).
    exists ((declLocator currPlugin, out) :: outs), w2,
           (EvResolveAndVerify (declLocator currPlugin) :: evs1 ++ evs2).
    split; [done|]. split; [by rewrite !fmap_cons, Ho|].
    split; [congruence|]. split; [congruence|].
    split; [by rewrite Ht2, Ht1, <- app_assoc|].
    split.
    + constructor; [done|]. by apply Forall_app.
    + change (EvResolveAndVerify (declLocator currPlugin) :: evs1 ++ evs2)
        with ([EvResolveAndVerify (declLocator currPlugin)] ++ evs1 ++ evs2).
      rewrite !attempts_app, Ha1, Ha2. by rewrite fmap_cons.
Qed.

Lemma elem_of_failuresOf (outs : list (Locator * Result pluginInfoWithAssets))
    (loc : Locator) (err : error) :
  (loc, err) ∈ failuresOf outs ↔ (loc, Err err) ∈ outs.
Proof.
  unfold failuresOf. rewrite list_elem_of_omap. split.
  - intros ([l [info|e]] & Hin & Heq); cbn in Heq; [done|].
    by injection Heq as -> ->.
  - intros Hin. by exists (loc, Err err).
Qed.

Lemma elem_of_successesOf (outs : list (Locator * Result pluginInfoWithAssets))
    (loc : Locator) (info : pluginInfoWithAssets) :
  (loc, info) ∈ successesOf outs ↔ (loc, Ok info) ∈ outs.
Proof.
  unfold successesOf. rewrite list_elem_of_omap. split.
  - intros ([l [i|e]] & Hin & Heq); cbn in Heq; [|done].
    by injection Heq as -> ->.
  - intros Hin. by exists (loc, Ok info).
Qed.

(** What [resolvePlugins] does while it holds the lock, in terms of the
    outcomes of the attempts. *)
Lemma resolvePluginsLocked_attemptAll
    (pluginsDir assetsDir downloadsDir : string)
    (osArch : OSArch) (pluginsParam : PluginsParam) (w : World Disk) :
  resolvePluginsLocked pluginsDir assetsDir downloadsDir osArch pluginsParam w
  = let '(outs, w') :=
      attemptAll pluginsDir assetsDir downloadsDir osArch pluginsParam
                 (Plugins pluginsParam) w in
    (match failuresOf outs with
     | [] => Ok (assignAll (successesOf outs))
     | _ :: _ => Err (resolveErrString (assignAll (failuresOf outs)))
     end, w').
Proof.
  unfold resolvePluginsLocked. rewrite foldl_resolveOne.
  destruct (attemptAll _ _ _ _ _ _ _) as [outs w'].
  fold (assignAll (successesOf outs)). fold (assignAll (failuresOf outs)).
  destruct (decide (size (assignAll (failuresOf outs)) = 0)) as [Hsz|Hsz].
  - apply assignAll_empty in Hsz. by rewrite Hsz.
  - destruct (failuresOf outs) eqn:Hf; [|done].
    exfalso. apply Hsz. by apply assignAll_empty.
Qed.

(** C1. With the lock taken, [resolvePlugins] attempts every declaration
    in order, whatever the earlier ones gave: [outs] are the outcomes of
    the attempts.  When no attempt fails it returns the accumulated set,
    the successes assigned in order, and no error.  When some attempt
    fails it returns no set and one error: a header, then for every failed
    Locator, and for no other, in Locator order, a line feed, the
    indentation and the reason recorded for it (the last one, when several
    declarations of one Locator fail). *)
Theorem C1_resolvePlugins_aggregates_failures
    (pluginsDir assetsDir downloadsDir : string) (osArch : OSArch)
    (pluginsParam : PluginsParam) (w : World Disk) :
  lockError (filepath_Join pluginsDir "godel-resolver.lock") (disk w) = None →
  ∃ outs r w' w1 w2 pluginErrors sortedKeys,
    resolvePlugins pluginsDir assetsDir downloadsDir osArch pluginsParam w
    = (r, w')
    ∧ lockedfile_Lock (filepath_Join pluginsDir "godel-resolver.lock") w
      = (None, w1)
    ∧ attemptAll pluginsDir assetsDir downloadsDir osArch pluginsParam
                 (Plugins pluginsParam) w1 = (outs, w2)
    ∧ w' = unlock (filepath_Join pluginsDir "godel-resolver.lock") w2
    ∧ outs.*1 = declLocator <$> Plugins pluginsParam
    ∧ attempts (trace w')
      = attempts (trace w) ++ (declLocator <$> Plugins pluginsParam)
    ∧ pluginErrors = assignAll (failuresOf outs)
    ∧ sortedKeys = SortLocators (elements (dom pluginErrors))
    ∧ (failuresOf outs = [] → r = Ok (assignAll (successesOf outs)))
    ∧ (failuresOf outs ≠ [] →
       r = Err (("failed to resolve " +:+ fmt_d (size pluginErrors)
                   +:+ " plugin(s):")
                +:+ String.concat ""
                      ((λ k, (LF +:+ strings_Repeat " " IndentSpaces)
                               +:+ (pluginErrors !!! k)) <$> sortedKeys)))
    ∧ StronglySorted Locator_le sortedKeys
    ∧ NoDup sortedKeys
    ∧ (∀ k, k ∈ sortedKeys ↔ ∃ err, (k, Err err) ∈ outs)
    ∧ (∀ k, k ∈ sortedKeys → (k, Err (pluginErrors !!! k)) ∈ outs)
    ∧ (∀ k info, assignAll (successesOf outs) !! k = Some info →
                 (k, Ok info) ∈ outs).
Proof.
  intros Hlock.
  unfold resolvePlugins, lockedfile_Lock. rewrite Hlock.
  rewrite resolvePluginsLocked_attemptAll.
  set (w1 := logEvent _ _).
  destruct (attemptAll_world pluginsDir assetsDir downloadsDir osArch
              pluginsParam (Plugins pluginsParam) w1)
    as (outs & w2 & evs & Hrun & Houts & Hfiles & Hheld & Htrace & Hres & Hatt).
  rewrite Hrun.
  eexists outs, _, _, w1, w2, _, _.
  split; [reflexivity|].
  split; [reflexivity|].
  split; [done|]. split; [reflexivity|]. split; [done|].
  split.
  { unfold unlock. cbn [trace logEvent]. rewrite Htrace.
    subst w1. cbn [trace logEvent].
    rewrite !attempts_app, Hatt. cbn. by rewrite !app_nil_r. }
  split; [reflexivity|]. split; [reflexivity|].
  split; [by intros ->|].
  split.
  { intros Hne. destruct (failuresOf outs) eqn:Hf; [done|].
    by rewrite resolveErrString_lines. }
  split; [apply SortLocators_Sorted|].
  split.
  { rewrite SortLocators_Permutation. apply NoDup_elements. }
  assert (∀ k, k ∈ SortLocators (elements (dom (assignAll (failuresOf outs))))
               ↔ is_Some (assignAll (failuresOf outs) !! k)) as Hkeys.
  { intros k. by rewrite elem_of_SortLocators, elem_of_elements, elem_of_dom. }
  split.
  { intros k. rewrite Hkeys, assignAll_is_Some, list_elem_of_fmap. split.
    - intros ([k' err] & -> & Hin). exists err. by apply elem_of_failuresOf.
    - intros [err Hin]. exists (k, err). split; [done|].
      by apply elem_of_failuresOf. }
  split.
  { intros k [err Herr]%Hkeys.
    rewrite (lookup_total_correct _ _ _ Herr).
    by apply elem_of_failuresOf, assignAll_lookup_Some. }
  intros k info Hk. by apply elem_of_successesOf, assignAll_lookup_Some.
Qed.

(** C10. [resolvePlugins] first locks "godel-resolver.lock" in the
    plugins directory.  When that fails it returns the error at once and
    leaves the world as it was: no declaration attempted, nothing on disk
    touched.  When it succeeds, the lock is the first event and its release
    the last one, with every attempt in between, and the lock file is no
    longer held once the function has returned, whether it returns a set
    or an error. *)
Theorem C10_resolvePlugins_lock
    (pluginsDir assetsDir downloadsDir : string) (osArch : OSArch)
    (pluginsParam : PluginsParam) (w : World Disk) :
  (∀ err,
     lockError (filepath_Join pluginsDir "godel-resolver.lock") (disk w)
     = Some err →
     resolvePlugins pluginsDir assetsDir downloadsDir osArch pluginsParam w
     = (Err (errors_Wrapf err "failed to lock resolver mutex file"), w))
  ∧ (lockError (filepath_Join pluginsDir "godel-resolver.lock") (disk w)
     = None →
     ∃ r w' evs,
       resolvePlugins pluginsDir assetsDir downloadsDir osArch pluginsParam w
       = (r, w')
       ∧ trace w'
         = trace w
           ++ [EvLock (filepath_Join pluginsDir "godel-resolver.lock")]
           ++ evs
           ++ [EvUnlock (filepath_Join pluginsDir "godel-resolver.lock")]
       ∧ Forall resolutionEvent evs
       ∧ attempts evs = declLocator <$> Plugins pluginsParam
       ∧ ((filepath_Join pluginsDir "godel-resolver.lock") ∉ held w')
       ∧ held w'
         = filter (λ p, p ≠ filepath_Join pluginsDir "godel-resolver.lock")
                  (held w)
       ∧ files w' = files w).
Proof.
  split.
  - intros err Hlock. unfold resolvePlugins, lockedfile_Lock.
    by rewrite Hlock.
  - intros Hlock. unfold resolvePlugins, lockedfile_Lock. rewrite Hlock.
    rewrite resolvePluginsLocked_attemptAll.
    set (path := filepath_Join pluginsDir "godel-resolver.lock").
    set (w1 := logEvent _ _).
    destruct (attemptAll_world pluginsDir assetsDir downloadsDir osArch
                pluginsParam (Plugins pluginsParam) w1)
      as (outs & w2 & evs & Hrun & Houts & Hfiles & Hheld & Htrace & Hres & Hatt).
    rewrite Hrun. eexists _, _, evs. split; [reflexivity|].
    unfold unlock. cbn [trace held files logEvent].
    rewrite Htrace, Hheld, Hfiles. subst w1. cbn [trace held files logEvent].
    split; [by rewrite <- !app_assoc|].
    split; [done|]. split; [done|].
    rewrite filter_cons_False by (by intros ?).
    split; [|done].
    intros [Hne _]%list_elem_of_filter. by apply Hne.
Qed.

(** ** Aggregation *)

Lemma aggregateOne_bound (pluginsDir assetsDir : string)
    (plugins : gmap Locator pluginInfoWithAssets) (k : Locator)
    (info : pluginInfoWithAssets)
    (tasks : list Task) (upgradeConfigTasks : list godellauncher.UpgradeConfigTask) :
  plugins !! k = Some info →
  aggregateOne pluginsDir assetsDir plugins k (tasks, upgradeConfigTasks)
  = Some (tasks ++ boundTasks pluginsDir assetsDir (k, info),
          upgradeConfigTasks
            ++ option_list (boundUpgradeConfigTask pluginsDir assetsDir (k, info))).
Proof.
  intros Hk. unfold aggregateOne, boundTasks, boundUpgradeConfigTask.
  rewrite Hk. cbn [mbind option_bind fst snd].
  destruct (UpgradeConfigTask _ _ _); cbn [option_list]; [done|].
  by rewrite app_nil_r.
Qed.

Lemma rangeM_aggregateOne (pluginsDir assetsDir : string)
    (plugins : gmap Locator pluginInfoWithAssets) (keys : list Locator)
    (tasks : list Task) (upgradeConfigTasks : list godellauncher.UpgradeConfigTask) :
  (∀ k, k ∈ keys → is_Some (plugins !! k)) →
  rangeM (aggregateOne pluginsDir assetsDir plugins) keys
         (tasks, upgradeConfigTasks)
  = Some (tasks ++ concat (boundTasks pluginsDir assetsDir
                             <$> omap (λ k, (k,.) <$> plugins !! k) keys),
          upgradeConfigTasks
            ++ omap (boundUpgradeConfigTask pluginsDir assetsDir)
                    (omap (λ k, (k,.) <$> plugins !! k) keys)).
Proof.
  revert tasks upgradeConfigTasks.
  induction keys as [|k keys IH]; intros tasks upgradeConfigTasks Hkeys.
  - cbn. by rewrite !app_nil_r.
  - destruct (Hkeys k) as [info Hk]; [by left|].
    cbn [rangeM omap list_omap]. rewrite (aggregateOne_bound _ _ _ _ info) by done.
    cbn [mbind option_bind]. rewrite IH by (intros k' Hk'; apply Hkeys; by right).
    rewrite Hk. cbn [fmap option_fmap option_map].
    rewrite fmap_cons. cbn [concat omap list_omap].
    rewrite <- !app_assoc. do 2 f_equal.
    by destruct (boundUpgradeConfigTask pluginsDir assetsDir (k, info)).
Qed.

Lemma omap_lookup_fst (plugins : gmap Locator pluginInfoWithAssets)
    (keys : list Locator) :
  (∀ k, k ∈ keys → is_Some (plugins !! k)) →
  (omap (λ k, (k,.) <$> plugins !! k) keys).*1 = keys.
Proof.
  induction keys as [|k keys IH]; intros Hkeys; [done|].
  destruct (Hkeys k) as [info Hk]; [by left|].
  cbn [omap list_omap]. rewrite Hk. cbn [fmap option_fmap option_map].
  rewrite fmap_cons. cbn [fst]. f_equal.
  apply IH. intros k' Hk'. apply Hkeys. by right.
Qed.

Lemma sorted_keys_is_Some (plugins : gmap Locator pluginInfoWithAssets)
    (keys : list Locator) :
  keys ≡ₚ elements (dom plugins) →
  ∀ k, k ∈ SortLocators keys → is_Some (plugins !! k).
Proof.
  intros Hperm k. rewrite elem_of_SortLocators, Hperm, elem_of_elements.
  apply elem_of_dom.
Qed.

Lemma sortedEntries_fst (plugins : gmap Locator pluginInfoWithAssets) :
  (sortedEntries plugins).*1 = SortLocators (elements (dom plugins)).
Proof. apply omap_lookup_fst. by apply sorted_keys_is_Some. Qed.

Lemma elem_of_sortedEntries (plugins : gmap Locator pluginInfoWithAssets)
    (k : Locator) (info : pluginInfoWithAssets) :
  (k, info) ∈ sortedEntries plugins ↔ plugins !! k = Some info.
Proof.
  unfold sortedEntries. rewrite list_elem_of_omap. split.
  - intros (k' & _ & Hk'). destruct (plugins !! k') as [i|] eqn:Hi; [|done].
    cbn in Hk'. by injection Hk' as -> ->.
  - intros Hk. exists k. rewrite Hk. split; [|done].
    rewrite elem_of_SortLocators, elem_of_elements. apply elem_of_dom. eauto.
Qed.

Lemma sortedEntries_Permutation (plugins : gmap Locator pluginInfoWithAssets) :
  sortedEntries plugins ≡ₚ map_to_list plugins.
Proof.
  apply NoDup_Permutation.
  - apply (NoDup_fmap_1 fst). rewrite sortedEntries_fst.
    rewrite SortLocators_Permutation. apply NoDup_elements.
  - apply NoDup_map_to_list.
  - intros [k info]. by rewrite elem_of_sortedEntries, elem_of_map_to_list.
Qed.

Lemma aggregate_in_sortedEntries (pluginsDir assetsDir : string)
    (plugins : gmap Locator pluginInfoWithAssets) (keys : list Locator) :
  keys ≡ₚ elements (dom plugins) →
  aggregate_in keys pluginsDir assetsDir plugins
  = Some (concat (boundTasks pluginsDir assetsDir <$> sortedEntries plugins),
          omap (boundUpgradeConfigTask pluginsDir assetsDir)
               (sortedEntries plugins)).
Proof.
  intros Hperm. unfold aggregate_in. cbv zeta.
  rewrite rangeM_aggregateOne by (by apply sorted_keys_is_Some).
  unfold sortedEntries.
  by rewrite (SortLocators_order_irrelevant _ _ Hperm).
Qed.

(** C9. Aggregation visits the resolved Locators in Locator order, each
    once: the tasks returned are the concatenation, in that order, of the
    tasks of each plugin as the plugin gives them, bound to its executable
    and asset paths, and the upgrade-config tasks are those of the plugins
    that have one, in the same order.  Nothing is reordered or removed, and
    the order in which the map is enumerated does not matter. *)
Theorem C9_aggregate_sorted_concatenation (pluginsDir assetsDir : string)
    (plugins : gmap Locator pluginInfoWithAssets) :
  aggregate pluginsDir assetsDir plugins
  = Some (concat (boundTasks pluginsDir assetsDir <$> sortedEntries plugins),
          omap (boundUpgradeConfigTask pluginsDir assetsDir)
               (sortedEntries plugins))
  ∧ (sortedEntries plugins).*1 = SortLocators (elements (dom plugins))
  ∧ StronglySorted Locator_le (sortedEntries plugins).*1
  ∧ sortedEntries plugins ≡ₚ map_to_list plugins
  ∧ length (concat (boundTasks pluginsDir assetsDir <$> sortedEntries plugins))
    = sum_list (length ∘ boundTasks pluginsDir assetsDir
                  <$> sortedEntries plugins)
  ∧ (∀ keys, keys ≡ₚ elements (dom plugins) →
             aggregate_in keys pluginsDir assetsDir plugins
             = aggregate pluginsDir assetsDir plugins).
Proof.
  split; [by apply aggregate_in_sortedEntries|].
  split; [apply sortedEntries_fst|].
  split; [rewrite sortedEntries_fst; apply SortLocators_Sorted|].
  split; [apply sortedEntries_Permutation|].
  split.
  { induction (sortedEntries plugins) as [|e l IH]; [done|].
    rewrite !fmap_cons. cbn [concat sum_list sum_list_with compose].
    by rewrite length_app, IH. }
  intros keys Hperm. unfold aggregate.
  by rewrite !aggregate_in_sortedEntries.
Qed.

(** ** loadPluginsTasks *)

Lemma aggregate_total (pluginsDir assetsDir : string)
    (plugins : gmap Locator pluginInfoWithAssets) :
  aggregate pluginsDir assetsDir plugins
  = Some (concat (boundTasks pluginsDir assetsDir <$> sortedEntries plugins),
          omap (boundUpgradeConfigTask pluginsDir assetsDir)
               (sortedEntries plugins)).
Proof. by apply aggregate_in_sortedEntries. Qed.

(** What [resolvePlugins] does to the world, whatever it returns: it adds
    events that are not writes, and leaves the files outside the three
    directories alone. *)
Lemma resolvePlugins_world (pluginsDir assetsDir downloadsDir : string)
    (osArch : OSArch) (pluginsParam : PluginsParam) (w : World Disk) :
  ∃ r w' evs,
    resolvePlugins pluginsDir assetsDir downloadsDir osArch pluginsParam w
    = (r, w')
    ∧ trace w' = trace w ++ evs
    ∧ Forall (λ ev, ¬ writeEvent ev) evs
    ∧ files w' = files w.
Proof.
  unfold resolvePlugins, lockedfile_Lock.
  destruct (lockError _ _) as [err|].
  { eexists _, _, []. split; [reflexivity|]. rewrite app_nil_r.
    repeat split. constructor. }
  rewrite resolvePluginsLocked_attemptAll.
  set (path := filepath_Join pluginsDir "godel-resolver.lock").
  set (w1 := logEvent _ _).
  destruct (attemptAll_world pluginsDir assetsDir downloadsDir osArch
              pluginsParam (Plugins pluginsParam) w1)
    as (outs & w2 & evs & Hrun & _ & Hfiles & _ & Htrace & Hres & _).
  rewrite Hrun.
  eexists _, _, ([EvLock path] ++ evs ++ [EvUnlock path]).
  split; [reflexivity|].
  unfold unlock. cbn [trace files logEvent]. rewrite Htrace, Hfiles.
  subst w1. cbn [trace files logEvent].
  split; [by rewrite <- !app_assoc|]. split; [|done].
  rewrite !Forall_app, !Forall_singleton. cbn [writeEvent].
  split; [tauto|]. split; [|tauto].
  eapply Forall_impl; [exact Hres|]. intros []; cbn; tauto.
Qed.

(** C5. With a cache path, a cache file that can be read and bytes that
    decode to a set, [loadPluginsTasks] returns the tasks aggregated from
    that set and leaves the world as it was: no lock is taken, no
    declaration is attempted, nothing is written.  What verification
    would say of the set plays no part. *)
Theorem C5_cache_hit_skips_resolution (pluginsParam : PluginsParam)
    (cachePath : string) (w : World Disk)
    (pluginsDir assetsDir downloadsDir : string)
    (pluginsConfigCacheBytes : list Byte.byte)
    (loadedPlugins : gmap Locator pluginInfoWithAssets) :
  ResourceDirs (disk w) = Ok (pluginsDir, assetsDir, downloadsDir) →
  cachePath ≠ "" →
  files w !! cachePath = Some (FileContent pluginsConfigCacheBytes) →
  unmarshalPluginsInfoJSON pluginsConfigCacheBytes
  = (Some loadedPlugins, None) →
  loadPluginsTasks pluginsParam cachePath w
  = (Ok <$> aggregate pluginsDir assetsDir loadedPlugins, w)
  ∧ aggregate pluginsDir assetsDir loadedPlugins
    = Some (concat (boundTasks pluginsDir assetsDir
                      <$> sortedEntries loadedPlugins),
            omap (boundUpgradeConfigTask pluginsDir assetsDir)
                 (sortedEntries loadedPlugins)).
Proof.
  intros Hdirs Hpath Hfile Hdecode. split; [|apply aggregate_total].
  unfold loadPluginsTasks, loadCache, os_ReadFile.
  rewrite Hdirs, decide_True, Hfile, Hdecode by done. done.
Qed.

(** C6. With a cache path: when the cache file does not exist, the call
    goes on to fresh resolution, and what it returns is what resolution,
    verification, the cache write and aggregation give; when the file
    cannot be read, or its bytes do not decode, the call returns that
    error, wrapped, and leaves the world as it was: nothing is resolved. *)
Theorem C6_cache_absent_or_corrupt (pluginsParam : PluginsParam)
    (cachePath : string) (w : World Disk)
    (pluginsDir assetsDir downloadsDir : string) :
  ResourceDirs (disk w) = Ok (pluginsDir, assetsDir, downloadsDir) →
  cachePath ≠ "" →
  (files w !! cachePath = None →
   loadCache cachePath w = Ok None
   ∧ loadPluginsTasks pluginsParam cachePath w
     = match resolveFresh pluginsDir assetsDir downloadsDir cachePath
                          pluginsParam w with
       | (Some (Ok plugins), w') =>
           (Ok <$> aggregate pluginsDir assetsDir plugins, w')
       | (Some (Err err), w') => (Some (Err err), w')
       | (None, w') => (None, w')
       end)
  ∧ (∀ err, files w !! cachePath = Some (FileUnreadable err) →
       loadPluginsTasks pluginsParam cachePath w
       = (Some (Err (errors_Wrapf err
                       ("failed to read plugin information from cache file at "
                          +:+ fmt_q cachePath))), w))
  ∧ (∀ pluginsConfigCacheBytes loadedPlugins err,
       files w !! cachePath = Some (FileContent pluginsConfigCacheBytes) →
       unmarshalPluginsInfoJSON pluginsConfigCacheBytes
       = (loadedPlugins, Some err) →
       loadPluginsTasks pluginsParam cachePath w
       = (Some (Err (errors_Wrapf err
                       "failed to unmarshal plugin information")), w)).
Proof.
  intros Hdirs Hpath. unfold loadPluginsTasks, loadCache, os_ReadFile.
  rewrite Hdirs, decide_True by done.
  split; [|split].
  - intros ->. cbn [IsNotExist negb]. split; [done|].
    by destruct (resolveFresh _ _ _ _ _ _) as [[[plugins|err]|] w'].
  - by intros err ->.
  - intros bytes loaded err -> ->. done.
Qed.

(** The body of [if plugins == nil]: resolution and verification come
    first and add no write; the cache write, if any, is the last thing
    done, and a write that fails leaves the files as they were. *)
Lemma resolveFresh_cases (pluginsDir assetsDir downloadsDir cachePath : string)
    (pluginsParam : PluginsParam) (w : World Disk) :
  ∃ r w1 evs1 out w' evs2,
    resolvePlugins pluginsDir assetsDir downloadsDir osarch_Current
                   pluginsParam w = (r, w1)
    ∧ trace w1 = trace w ++ evs1
    ∧ Forall (λ ev, ¬ writeEvent ev) evs1
    ∧ files w1 = files w
    ∧ resolveFresh pluginsDir assetsDir downloadsDir cachePath pluginsParam w
      = (out, w')
    ∧ trace w' = trace w1 ++ evs2
    ∧ ((∃ err, r = Err err ∧ out = Some (Err err) ∧ w' = w1 ∧ evs2 = [])
       ∨ (∃ plugins err,
            r = Ok plugins
            ∧ verifyPluginCompatibility plugins = Some (Some err)
            ∧ out = Some (Err err) ∧ w' = w1 ∧ evs2 = [])
       ∨ (∃ plugins,
            r = Ok plugins
            ∧ verifyPluginCompatibility plugins = Some None
            ∧ ((out = Some (Ok plugins))
               ∨ (∃ err, out = Some (Err err) ∧ files w' = files w1)))).
Proof.
  destruct (resolvePlugins_world pluginsDir assetsDir downloadsDir
              osarch_Current pluginsParam w)
    as (r & w1 & evs1 & Hres & Htr & Hnw & Hfiles).
  unfold resolveFresh. rewrite Hres.
  destruct r as [plugins|err].
  2:{ eexists _, w1, evs1, _, w1, []. rewrite app_nil_r.
      repeat (split; [done|]). left. by exists err. }
  destruct (verifyPluginCompatibility_total plugins) as [[err|] Hv];
    rewrite Hv.
  { eexists _, w1, evs1, _, w1, []. rewrite app_nil_r.
    repeat (split; [done|]). right. left. by exists plugins, err. }
  destruct (decide (cachePath ≠ "")) as [Hpath|Hpath].
  2:{ eexists _, w1, evs1, _, w1, []. rewrite app_nil_r.
      repeat (split; [done|]). right. right. exists plugins. eauto. }
  destruct (marshalPluginsInfoJSON plugins) as [pluginsJSON|err].
  2:{ eexists _, w1, evs1, _, w1, []. rewrite app_nil_r.
      repeat (split; [done|]). right. right. exists plugins.
      split; [done|]. split; [done|]. right. eauto. }
  unfold writeFileUsingRename. cbn [files logEvent].
  destruct (renameError cachePath (files w1)) as [err|].
  - eexists _, w1, evs1, _, _, [EvWriteFile cachePath pluginsJSON].
    repeat (split; [done|]). right. right. exists plugins.
    split; [done|]. split; [done|]. right. eauto.
  - eexists _, w1, evs1, _, _, [EvWriteFile cachePath pluginsJSON].
    repeat (split; [done|]). right. right. exists plugins. eauto.
Qed.

(** C7. When resolution runs and a declaration fails, or verification of
    the resolved set fails, [loadPluginsTasks] returns an error, no write is
    among the events it adds and the files are as before.  A write among
    the events means that resolution returned a set and verification
    passed it.  And on every error the call returns, the files are as
    before. *)
Theorem C7_cache_written_only_after_success (pluginsParam : PluginsParam)
    (cachePath : string) (w : World Disk) :
  ∃ out w' evs,
    loadPluginsTasks pluginsParam cachePath w = (out, w')
    ∧ trace w' = trace w ++ evs
    ∧ (∀ pluginsDir assetsDir downloadsDir r w1,
         ResourceDirs (disk w) = Ok (pluginsDir, assetsDir, downloadsDir) →
         loadCache cachePath w = Ok None →
         resolvePlugins pluginsDir assetsDir downloadsDir osarch_Current
                        pluginsParam w = (r, w1) →
         (∀ plugins, r = Ok plugins →
            ∃ err, verifyPluginCompatibility plugins = Some (Some err)) →
         (∃ err, out = Some (Err err))
         ∧ Forall (λ ev, ¬ writeEvent ev) evs
         ∧ files w' = files w)
    ∧ (Exists writeEvent evs →
       ∃ pluginsDir assetsDir downloadsDir plugins w1,
         ResourceDirs (disk w) = Ok (pluginsDir, assetsDir, downloadsDir)
         ∧ resolvePlugins pluginsDir assetsDir downloadsDir osarch_Current
                          pluginsParam w = (Ok plugins, w1)
         ∧ verifyPluginCompatibility plugins = Some None)
    ∧ (∀ err, out = Some (Err err) → files w' = files w).
Proof.
  unfold loadPluginsTasks.
  destruct (ResourceDirs (disk w)) as [[[pluginsDir assetsDir] downloadsDir]|err]
    eqn:Hdirs.
  2:{ eexists _, w, []. rewrite app_nil_r. split; [done|]. split; [done|].
      split; [done|]. split; [by intros ?%Exists_nil|done]. }
  destruct (loadCache cachePath w) as [[loaded|]|err] eqn:Hcache.
  3:{ eexists _, w, []. rewrite app_nil_r. split; [done|]. split; [done|].
      split; [done|]. split; [by intros ?%Exists_nil|done]. }
  { eexists _, w, []. rewrite app_nil_r. split; [done|]. split; [done|].
    split; [done|]. split; [by intros ?%Exists_nil|done]. }
  destruct (resolveFresh_cases pluginsDir assetsDir downloadsDir cachePath
              pluginsParam w)
    as (r & w1 & evs1 & out & w' & evs2 & Hres & Htr1 & Hnw & Hf1 & Hfresh
        & Htr2 & Hcases).
  rewrite Hfresh.
  exists (match out with
          | None => None
          | Some (Err err) => Some (Err err)
          | Some (Ok plugins) => Ok <$> aggregate pluginsDir assetsDir plugins
          end), w', (evs1 ++ evs2).
  split; [by destruct out as [[plugins|err]|]|].
  split; [by rewrite Htr2, Htr1, <- app_assoc|].
  destruct Hcases as [(err & -> & -> & -> & ->)
                     |[(plugins & err & -> & Hv & -> & -> & ->)
                      |(plugins & -> & Hv & Hout)]].
  - rewrite app_nil_r. split; [|split].
    + intros pd ad dd r w2 [= <- <- <-] _ Hres' _. eauto.
    + intros Hex. exfalso. rewrite Forall_Exists_neg in Hnw. by apply Hnw.
    + done.
  - rewrite app_nil_r. split; [|split].
    + intros pd ad dd r w2 [= <- <- <-] _ Hres' _. eauto.
    + intros Hex. exfalso. rewrite Forall_Exists_neg in Hnw. by apply Hnw.
    + done.
  - split; [|split].
    + intros pd ad dd r w2 [= <- <- <-] _ Hres' Hfail.
      rewrite Hres in Hres'. injection Hres' as <- <-.
      destruct (Hfail plugins eq_refl) as [err Herr]. congruence.
    + intros _. by exists pluginsDir, assetsDir, downloadsDir, plugins, w1.
    + intros err Herr. destruct Hout as [->|(err' & -> & Hf2)].
      * rewrite aggregate_total in Herr. done.
      * congruence.
Qed.

(** [loadPluginsTasks] never panics: every key that is looked up comes from
    the map it is looked up in. *)
Lemma loadPluginsTasks_no_panic (pluginsParam : PluginsParam)
    (cachePath : string) (w : World Disk) :
  is_Some (loadPluginsTasks pluginsParam cachePath w).1.
Proof.
  unfold loadPluginsTasks.
  destruct (ResourceDirs (disk w)) as [[[pluginsDir assetsDir] downloadsDir]|err];
    [|by eexists].
  destruct (loadCache cachePath w) as [[loaded|]|err]; [| |by eexists].
  { rewrite aggregate_total. by eexists. }
  destruct (resolveFresh_cases pluginsDir assetsDir downloadsDir cachePath
              pluginsParam w)
    as (r & w1 & evs1 & out & w' & evs2 & _ & _ & _ & _ & -> & _ & Hcases).
  destruct Hcases as [(err & _ & -> & _)
                     |[(plugins & err & _ & _ & -> & _)
                      |(plugins & _ & _ & [->|(err & -> & _)])]];
    try by eexists.
  rewrite aggregate_total. by eexists.
Qed.

End plugins_correct.

(** ** The theorems at concrete inputs *)

Import Demo.

Example verify_twoVersions :
  verifyPluginCompatibility twoVersions
  = Some (Some "2 plugins had compatibility issues:
    g1:p1:1.0:
        different version of the same plugin
    g1:p1:2.0:
        different version of the same plugin").
Proof. vm_compute. reflexivity. Qed.

Example verify_sharedTasks :
  verifyPluginCompatibility sharedTasks
  = Some (Some "2 plugins had compatibility issues:
    g1:p1:1.0:
        provides conflicting tasks: [build fmt]
    g3:p3:1.0:
        provides conflicting tasks: [build fmt]").
Proof. vm_compute. reflexivity. Qed.

Example resolve_threeDecls :
  (resolvePlugins "plugins" "assets" "downloads" osarch_Current threeDecls
                  emptyWorld).1
  = Err "failed to resolve 1 plugin(s):
    no resolver supplied g2:p2:missing".
Proof. vm_compute. reflexivity. Qed.

(** The names are not deduplicated: a name that the current plugin declares
    twice is listed twice. *)
Example commonTasksOf_repeated_name :
  commonTasksOf (mkPluginInfoWithAssets (info ["b"; "a"; "b"] false) [])
                (mkPluginInfoWithAssets (info ["b"; "c"] false) [])
  = ["b"; "b"].
Proof. vm_compute. reflexivity. Qed.

(** A set that verification rejects is served from the cache all the same. *)
Example load_cachedWorld :
  loadPluginsTasks threeDecls "cache.json" cachedWorld
  = (Some (Ok ([mkTask "build" "plugins/p1-1.0" [];
                mkTask "test" "plugins/p1-2.0" []], [])),
     cachedWorld).
Proof. vm_compute. reflexivity. Qed.

(** A fresh run that succeeds writes the cache last. *)
Example load_fresh_trace :
  trace (loadPluginsTasks (mkPluginsParam [] [decl g3p3v1; decl g1p1v1])
                          "cache.json" emptyWorld).2
  = [EvLock "plugins/godel-resolver.lock";
     EvResolveAndVerify g3p3v1; EvInfoFromPlugin "plugins/p3-1.0";
     EvResolveAssets [];
     EvResolveAndVerify g1p1v1; EvInfoFromPlugin "plugins/p1-1.0";
     EvResolveAssets [];
     EvUnlock "plugins/godel-resolver.lock";
     EvWriteFile "cache.json" [Byte.x7b; Byte.x7d]].
Proof. vm_compute. reflexivity. Qed.

Lemma C2_different_version_of_same_plugin_witness :
  Version g1p1v1 ≠ Version g1p1v2
  ∧ ∃ conflicts,
      conflictsOf twoVersions = Some conflicts
      ∧ verifyPluginCompatibility twoVersions
        = Some (Some (conflictsErrString conflicts))
      ∧ reported conflicts g1p1v1 g1p1v2 = Some errDifferentVersion
      ∧ reported conflicts g1p1v2 g1p1v1 = Some errDifferentVersion
      ∧ (dom twoVersions = {[g1p1v1; g1p1v2]} →
         conflicts = {[g1p1v1 := {[g1p1v2 := errDifferentVersion]};
                       g1p1v2 := {[g1p1v1 := errDifferentVersion]}]}).
Proof.
  split; [discriminate|].
  apply (C2_different_version_of_same_plugin twoVersions g1p1v1 g1p1v2
           (mkPluginInfoWithAssets (info ["build"] false) [])
           (mkPluginInfoWithAssets (info ["test"] false) []));
    [reflexivity | reflexivity | reflexivity | reflexivity | discriminate].
Defined.

Lemma C3_task_name_collision_witness :
  g1p1v1 ≠ g3p3v1
  ∧ ¬ (Group g1p1v1 = Group g3p3v1 ∧ Product g1p1v1 = Product g3p3v1)
  ∧ (∃ n, n ∈ taskNames (mkPluginInfoWithAssets
                           (info ["test"; "fmt"; "build"] false) [])
          ∧ n ∈ taskNames (mkPluginInfoWithAssets
                             (info ["build"; "lint"; "fmt"] false) []))
  ∧ commonTasksOf
      (mkPluginInfoWithAssets (info ["test"; "fmt"; "build"] false) [])
      (mkPluginInfoWithAssets (info ["build"; "lint"; "fmt"] false) [])
    = ["build"; "fmt"]
  ∧ ∃ conflicts,
      conflictsOf sharedTasks = Some conflicts
      ∧ reported conflicts g1p1v1 g3p3v1
        = Some (errConflictingTasks
                  (commonTasksOf
                     (mkPluginInfoWithAssets
                        (info ["test"; "fmt"; "build"] false) [])
                     (mkPluginInfoWithAssets
                        (info ["build"; "lint"; "fmt"] false) []))).
Proof.
  assert (g1p1v1 ≠ g3p3v1) as Hne by discriminate.
  assert (¬ (Group g1p1v1 = Group g3p3v1 ∧ Product g1p1v1 = Product g3p3v1))
    as Hdup by (intros [Hg _]; discriminate Hg).
  assert (∃ n, n ∈ taskNames (mkPluginInfoWithAssets
                                (info ["test"; "fmt"; "build"] false) [])
               ∧ n ∈ taskNames (mkPluginInfoWithAssets
                                  (info ["build"; "lint"; "fmt"] false) []))
    as Hshared.
  { exists "build". split; [by do 2 right; left | by left]. }
  split; [exact Hne|]. split; [exact Hdup|]. split; [exact Hshared|].
  split; [vm_compute; reflexivity|].
  destruct (C3_task_name_collision sharedTasks g1p1v1 g3p3v1
              (mkPluginInfoWithAssets (info ["test"; "fmt"; "build"] false) [])
              (mkPluginInfoWithAssets (info ["build"; "lint"; "fmt"] false) [])
              eq_refl eq_refl Hne)
    as (conflicts & Hc & _ & _ & Htasks & _).
  exists conflicts. split; [exact Hc|].
  apply Htasks; [exact Hdup | | exact Hshared].
  intros (Hp & _). discriminate Hp.
Defined.

Lemma C4_config_collision_witness :
  Group g1p1v1 ≠ Group g2p1v1
  ∧ Product g1p1v1 = Product g2p1v1
  ∧ commonTasksOf (mkPluginInfoWithAssets (info ["build"] true) [])
                  (mkPluginInfoWithAssets (info ["test"] true) []) = []
  ∧ ∃ conflicts,
      conflictsOf sameProduct = Some conflicts
      ∧ reported conflicts g1p1v1 g2p1v1 = Some errConfigCollision
      ∧ reported conflicts g2p1v1 g1p1v1 = Some errConfigCollision
      ∧ verifyPluginCompatibility sameProduct
        = Some (Some (conflictsErrString conflicts)).
Proof.
  split; [discriminate|]. split; [reflexivity|].
  split; [vm_compute; reflexivity|].
  destruct (C4_config_collision sameProduct g1p1v1 g2p1v1
              (mkPluginInfoWithAssets (info ["build"] true) [])
              (mkPluginInfoWithAssets (info ["test"] true) [])
              eq_refl eq_refl)
    as (conflicts & Hc & Hboth & _); [discriminate | reflexivity |].
  exists conflicts. split; [exact Hc|].
  apply Hboth; reflexivity.
Defined.

Lemma C1_resolvePlugins_aggregates_failures_witness :
  lockError (filepath_Join "plugins" "godel-resolver.lock") (disk emptyWorld)
  = None
  ∧ ∃ outs r w' w1 w2 pluginErrors sortedKeys,
      resolvePlugins "plugins" "assets" "downloads" osarch_Current threeDecls
                     emptyWorld = (r, w')
      ∧ lockedfile_Lock (filepath_Join "plugins" "godel-resolver.lock")
                        emptyWorld = (None, w1)
      ∧ attemptAll "plugins" "assets" "downloads" osarch_Current threeDecls
                   (Plugins threeDecls) w1 = (outs, w2)
      ∧ w' = unlock (filepath_Join "plugins" "godel-resolver.lock") w2
      ∧ outs.*1 = declLocator <$> Plugins threeDecls
      ∧ attempts (trace w')
        = attempts (trace emptyWorld) ++ (declLocator <$> Plugins threeDecls)
      ∧ pluginErrors = assignAll (failuresOf outs)
      ∧ sortedKeys = SortLocators (elements (dom pluginErrors))
      ∧ (failuresOf outs = [] → r = Ok (assignAll (successesOf outs)))
      ∧ (failuresOf outs ≠ [] →
         r = Err (("failed to resolve " +:+ fmt_d (size pluginErrors)
                     +:+ " plugin(s):")
                  +:+ String.concat ""
                        ((λ k, (LF +:+ strings_Repeat " " IndentSpaces)
                                 +:+ (pluginErrors !!! k)) <$> sortedKeys)))
      ∧ StronglySorted Locator_le sortedKeys
      ∧ NoDup sortedKeys
      ∧ (∀ k, k ∈ sortedKeys ↔ ∃ err, (k, Err err) ∈ outs)
      ∧ (∀ k, k ∈ sortedKeys → (k, Err (pluginErrors !!! k)) ∈ outs)
      ∧ (∀ k info, assignAll (successesOf outs) !! k = Some info →
                   (k, Ok info) ∈ outs).
Proof.
  split; [reflexivity|].
  apply (C1_resolvePlugins_aggregates_failures
           "plugins" "assets" "downloads" osarch_Current threeDecls emptyWorld).
  reflexivity.
Defined.

Lemma C5_cache_hit_skips_resolution_witness :
  ResourceDirs (disk cachedWorld) = Ok ("plugins", "assets", "downloads")
  ∧ "cache.json" ≠ ""
  ∧ files cachedWorld !! "cache.json" = Some (FileContent [Byte.x01])
  ∧ unmarshalPluginsInfoJSON [Byte.x01] = (Some twoVersions, None)
  ∧ (∃ err, verifyPluginCompatibility twoVersions = Some (Some err))
  ∧ loadPluginsTasks threeDecls "cache.json" cachedWorld
    = (Ok <$> aggregate "plugins" "assets" twoVersions, cachedWorld)
  ∧ aggregate "plugins" "assets" twoVersions
    = Some (concat (boundTasks "plugins" "assets" <$> sortedEntries twoVersions),
            omap (boundUpgradeConfigTask "plugins" "assets")
                 (sortedEntries twoVersions)).
Proof.
  split; [reflexivity|]. split; [discriminate|]. split; [reflexivity|].
  split; [reflexivity|].
  split; [eexists; vm_compute; reflexivity|].
  apply (C5_cache_hit_skips_resolution threeDecls "cache.json" cachedWorld
           "plugins" "assets" "downloads" [Byte.x01] twoVersions);
    [reflexivity | discriminate | reflexivity | reflexivity].
Defined.

Lemma C6_cache_absent_or_corrupt_witness :
  (files emptyWorld !! "cache.json" = None
   ∧ loadCache "cache.json" emptyWorld = Ok None
   ∧ loadPluginsTasks threeDecls "cache.json" emptyWorld
     = match resolveFresh "plugins" "assets" "downloads" "cache.json"
                          threeDecls emptyWorld with
       | (Some (Ok plugins), w') =>
           (Ok <$> aggregate "plugins" "assets" plugins, w')
       | (Some (Err err), w') => (Some (Err err), w')
       | (None, w') => (None, w')
       end)
  ∧ (files unreadableWorld !! "cache.json"
     = Some (FileUnreadable "permission denied")
     ∧ loadPluginsTasks threeDecls "cache.json" unreadableWorld
       = (Some (Err (errors_Wrapf "permission denied"
                       ("failed to read plugin information from cache file at "
                          +:+ fmt_q "cache.json"))), unreadableWorld))
  ∧ (files corruptWorld !! "cache.json" = Some (FileContent [Byte.x02])
     ∧ unmarshalPluginsInfoJSON [Byte.x02]
       = (None, Some "unexpected end of JSON input")
     ∧ loadPluginsTasks threeDecls "cache.json" corruptWorld
       = (Some (Err (errors_Wrapf "unexpected end of JSON input"
                       "failed to unmarshal plugin information")),
          corruptWorld)).
Proof.
  assert ("cache.json" ≠ "") as Hpath by discriminate.
  split; [|split].
  - split; [reflexivity|].
    destruct (C6_cache_absent_or_corrupt threeDecls "cache.json" emptyWorld
                "plugins" "assets" "downloads") as (Habsent & _ & _);
      [reflexivity | exact Hpath |].
    apply Habsent. reflexivity.
  - split; [reflexivity|].
    destruct (C6_cache_absent_or_corrupt threeDecls "cache.json"
                unreadableWorld "plugins" "assets" "downloads")
      as (_ & Hunreadable & _); [reflexivity | exact Hpath |].
    apply Hunreadable. reflexivity.
  - split; [reflexivity|]. split; [reflexivity|].
    destruct (C6_cache_absent_or_corrupt threeDecls "cache.json" corruptWorld
                "plugins" "assets" "downloads") as (_ & _ & Hcorrupt);
      [reflexivity | exact Hpath |].
    apply (Hcorrupt [Byte.x02] None); reflexivity.
Defined.

Lemma C7_cache_written_only_after_success_witness :
  ∃ out w' evs,
    loadPluginsTasks threeDecls "cache.json" emptyWorld = (out, w')
    ∧ trace w' = trace emptyWorld ++ evs
    ∧ (∃ err, out = Some (Err err))
    ∧ Forall (λ ev, ¬ writeEvent ev) evs
    ∧ files w' = files emptyWorld.
Proof.
  destruct (C7_cache_written_only_after_success threeDecls "cache.json"
              emptyWorld)
    as (out & w' & evs & Hload & Htrace & Hfail & _).
  exists out, w', evs. split; [exact Hload|]. split; [exact Htrace|].
  apply (Hfail "plugins" "assets" "downloads"
           (resolvePlugins "plugins" "assets" "downloads" osarch_Current
                           threeDecls emptyWorld).1
           (resolvePlugins "plugins" "assets" "downloads" osarch_Current
                           threeDecls emptyWorld).2);
    [reflexivity | reflexivity | reflexivity |].
  intros plugins Hr. vm_compute in Hr. discriminate Hr.
Defined.

Lemma C9_aggregate_sorted_concatenation_witness :
  [g3p3v1; g1p1v1] ≡ₚ elements (dom sharedTasks)
  ∧ aggregate_in [g3p3v1; g1p1v1] "plugins" "assets" sharedTasks
    = aggregate "plugins" "assets" sharedTasks
  ∧ aggregate "plugins" "assets" sharedTasks
    = Some (concat (boundTasks "plugins" "assets" <$> sortedEntries sharedTasks),
            omap (boundUpgradeConfigTask "plugins" "assets")
                 (sortedEntries sharedTasks))
  ∧ (sortedEntries sharedTasks).*1 = [g1p1v1; g3p3v1].
Proof.
  assert ([g3p3v1; g1p1v1] ≡ₚ elements (dom sharedTasks)) as Hperm.
  { apply NoDup_Permutation.
    - apply NoDup_cons. split; [|apply NoDup_singleton].
      intros Hin%list_elem_of_singleton. discriminate Hin.
    - apply NoDup_elements.
    - intros k. rewrite elem_of_elements, elem_of_dom.
      unfold sharedTasks. rewrite !elem_of_cons, elem_of_nil.
      split.
      + intros [->|[->|[]]]; eexists; reflexivity.
      + intros [i Hi]. destruct (decide (k = g1p1v1)) as [->|Hne1]; [tauto|].
        rewrite lookup_insert_ne in Hi by done.
        destruct (decide (k = g3p3v1)) as [->|Hne3]; [tauto|].
        by rewrite lookup_singleton_ne in Hi. }
  split; [exact Hperm|].
  destruct (C9_aggregate_sorted_concatenation "plugins" "assets" sharedTasks)
    as (Hagg & _ & _ & _ & _ & Horder).
  split; [exact (Horder _ Hperm)|]. split; [exact Hagg|].
  vm_compute. reflexivity.
Defined.

Lemma C10_resolvePlugins_lock_witness :
  (lockError (filepath_Join "plugins" "godel-resolver.lock")
             (disk readOnlyWorld) = Some "permission denied"
   ∧ resolvePlugins "plugins" "assets" "downloads" osarch_Current threeDecls
                    readOnlyWorld
     = (Err (errors_Wrapf "permission denied"
               "failed to lock resolver mutex file"), readOnlyWorld))
  ∧ (lockError (filepath_Join "plugins" "godel-resolver.lock")
               (disk emptyWorld) = None
     ∧ ∃ r w' evs,
         resolvePlugins "plugins" "assets" "downloads" osarch_Current
                        threeDecls emptyWorld = (r, w')
         ∧ trace w'
           = trace emptyWorld
             ++ [EvLock (filepath_Join "plugins" "godel-resolver.lock")]
             ++ evs
             ++ [EvUnlock (filepath_Join "plugins" "godel-resolver.lock")]
         ∧ Forall resolutionEvent evs
         ∧ attempts evs = declLocator <$> Plugins threeDecls
         ∧ ((filepath_Join "plugins" "godel-resolver.lock") ∉ held w')
         ∧ held w'
           = filter (λ p, p ≠ filepath_Join "plugins" "godel-resolver.lock")
                    (held emptyWorld)
         ∧ files w' = files emptyWorld).
Proof.
  split.
  - split; [reflexivity|].
    apply (C10_resolvePlugins_lock "plugins" "assets" "downloads"
             osarch_Current threeDecls readOnlyWorld).
    reflexivity.
  - split; [reflexivity|].
    apply (C10_resolvePlugins_lock "plugins" "assets" "downloads"
             osarch_Current threeDecls emptyWorld).
    reflexivity.
Defined.

(** * Further properties of the package *)

(** ** When a pair is not in conflict *)

Lemma pairConflict_None_iff (plugin other : Locator)
    (curr oi : pluginInfoWithAssets) :
  other ≠ plugin →
  pairConflict plugin curr other oi = None
  ↔ ¬ (Group other = Group plugin ∧ Product other = Product plugin)
    ∧ ¬ (Product plugin = Product other
         ∧ UsesConfig (PluginInfo curr) = true
         ∧ UsesConfig (PluginInfo oi) = true)
    ∧ ∀ n, n ∈ taskNames curr → n ∉ taskNames oi.
Proof.
  intros Hne. split.
  - intros Hnone.
    assert (¬ (Group other = Group plugin ∧ Product other = Product plugin))
      as Hdup.
    { intros [Hg Hp].
      by rewrite pairConflict_different_version in Hnone. }
    assert (¬ (Product plugin = Product other
               ∧ UsesConfig (PluginInfo curr) = true
               ∧ UsesConfig (PluginInfo oi) = true)) as Hcfg.
    { intros (Hp & Hc & Ho).
      rewrite pairConflict_config_collision in Hnone; try done.
      intros Hg. apply Hdup. by split. }
    split; [done|]. split; [done|].
    rewrite pairConflict_tasks in Hnone by done.
    destruct (decide (length (commonTasksOf curr oi) ≠ 0)) as [|Hlen]; [done|].
    intros n Hn Hn'. apply Hlen, commonTasksOf_nonempty. eauto.
  - intros (Hdup & Hcfg & Hdisj).
    rewrite pairConflict_tasks by done.
    rewrite decide_False; [done|].
    rewrite commonTasksOf_nonempty. intros (n & Hn & Hn'). by eapply Hdisj.
Qed.

Lemma pairConflict_refl (plugin : Locator) (curr oi : pluginInfoWithAssets) :
  pairConflict plugin curr plugin oi = None.
Proof. unfold pairConflict. by rewrite decide_True. Qed.

(** Whether the pair is in conflict, and under which of the first two rules,
    does not depend on the direction. *)
Lemma pairConflict_sym (a b : Locator) (ia ib : pluginInfoWithAssets) :
  (pairConflict a ia b ib = None ↔ pairConflict b ib a ia = None)
  ∧ (pairConflict a ia b ib = Some errDifferentVersion
     ↔ pairConflict b ib a ia = Some errDifferentVersion)
  ∧ (pairConflict a ia b ib = Some errConfigCollision
     ↔ pairConflict b ib a ia = Some errConfigCollision).
Proof.
  destruct (decide (a = b)) as [->|Hne].
  { by rewrite !pairConflict_refl. }
  assert (b ≠ a) as Hne' by done.
  destruct (decide (Group b = Group a ∧ Product b = Product a)) as [[Hg Hp]|Hdup].
  { rewrite (pairConflict_different_version a b) by done.
    by rewrite (pairConflict_different_version b a). }
  assert (¬ (Group a = Group b ∧ Product a = Product b)) as Hdup'.
  { intros [? ?]. by apply Hdup. }
  destruct (decide (Product a = Product b
                    ∧ UsesConfig (PluginInfo ia) = true
                    ∧ UsesConfig (PluginInfo ib) = true)) as [(Hp & Hca & Hcb)|Hcfg].
  { assert (Group b ≠ Group a) as Hg by (intros Hg; by apply Hdup).
    rewrite (pairConflict_config_collision a b) by done.
    by rewrite (pairConflict_config_collision b a). }
  assert (¬ (Product b = Product a
             ∧ UsesConfig (PluginInfo ib) = true
             ∧ UsesConfig (PluginInfo ia) = true)) as Hcfg'.
  { intros (? & ? & ?). by apply Hcfg. }
  rewrite (pairConflict_tasks a b), (pairConflict_tasks b a) by done.
  assert (length (commonTasksOf ia ib) ≠ 0 ↔ length (commonTasksOf ib ia) ≠ 0)
    as Hlen.
  { rewrite !commonTasksOf_nonempty.
    split; intros (n & Hn & Hn'); by exists n. }
  destruct (decide (length (commonTasksOf ia ib) ≠ 0)) as [Hab|Hab],
           (decide (length (commonTasksOf ib ia) ≠ 0)) as [Hba|Hba];
    try tauto.
  split; [done|].
  split; split; intros [= Heq];
    (by apply errConflictingTasks_ne_errDifferentVersion in Heq)
    || (by apply errConflictingTasks_ne_errConfigCollision in Heq).
Qed.

(** The report is empty exactly when no ordered pair of resolved plugins is
    in conflict. *)
Lemma conflictsOf_empty_iff (plugins : gmap Locator pluginInfoWithAssets) :
  ∃ conflicts,
    conflictsOf plugins = Some conflicts
    ∧ (size conflicts = 0
       ↔ ∀ a b ia ib, plugins !! a = Some ia → plugins !! b = Some ib →
                      pairConflict a ia b ib = None).
Proof.
  destruct (conflictsOf_reported plugins) as (conflicts & Hc & Hne & Hrep).
  exists conflicts. split; [done|]. rewrite map_size_empty_iff. split.
  - intros -> a b ia ib Ha Hb.
    specialize (Hrep a b). rewrite Ha, Hb in Hrep. cbn in Hrep.
    rewrite <- Hrep. unfold reported. by rewrite lookup_empty.
  - intros Hall. apply map_eq. intros a. rewrite lookup_empty.
    destruct (conflicts !! a) as [m|] eqn:Hm; [|done].
    exfalso. destruct (map_choose m) as (b & e & Hb).
    { intros ->. by apply (Hne a). }
    assert (reported conflicts a b = Some e) as Hr.
    { unfold reported. by rewrite Hm. }
    rewrite Hrep in Hr.
    destruct (plugins !! a) as [ia|] eqn:Ha; [|done].
    destruct (plugins !! b) as [ib|] eqn:Hb'; [|done].
    cbn in Hr. by rewrite (Hall a b ia ib) in Hr.
Qed.

Section plugins_more.

Context {Disk : Type} `{!Collaborators Disk}.

(** X1. Verification passes exactly when, for every two distinct resolved
    plugins, they do not share group and product, they do not share a
    product name while both use configuration, and no task name is declared
    by both. *)
Theorem X1_verification_passes_iff
    (plugins : gmap Locator pluginInfoWithAssets) :
  verifyPluginCompatibility plugins = Some None
  ↔ ∀ a b ia ib,
      plugins !! a = Some ia → plugins !! b = Some ib → a ≠ b →
      ¬ (Group a = Group b ∧ Product a = Product b)
      ∧ ¬ (Product a = Product b
           ∧ UsesConfig (PluginInfo ia) = true
           ∧ UsesConfig (PluginInfo ib) = true)
      ∧ ∀ n, n ∈ taskNames ia → n ∉ taskNames ib.
Proof.
  destruct (conflictsOf_empty_iff plugins) as (conflicts & Hc & Hempty).
  rewrite (verifyPluginCompatibility_conflictsOf _ _ Hc).
  split.
  - intros Hv a b ia ib Ha Hb Hne.
    destruct (decide (size conflicts = 0)) as [Hsz|]; [|done].
    assert (pairConflict a ia b ib = None) as Hnone by (by apply Hempty).
    apply pairConflict_None_iff in Hnone; [|done].
    destruct Hnone as (Hdup & Hcfg & Hdisj).
    split; [intros [? ?]; by apply Hdup|]. split; [|done].
    intros (? & ? & ?). by apply Hcfg.
  - intros Hall. rewrite decide_True; [done|]. apply Hempty.
    intros a b ia ib Ha Hb.
    destruct (decide (b = a)) as [->|Hne]; [apply pairConflict_refl|].
    apply pairConflict_None_iff; [done|].
    destruct (Hall a b ia ib Ha Hb) as (Hdup & Hcfg & Hdisj); [done|].
    split; [intros [? ?]; by apply Hdup|]. split; [|done].
    intros (? & ? & ?). by apply Hcfg.
Qed.

Lemma map_two_keys_size {V : Type} (m : gmap Locator V) (a b : Locator) :
  a ≠ b → is_Some (m !! a) → is_Some (m !! b) → 2 ≤ size m.
Proof.
  intros Hne Ha Hb. rewrite <- size_dom.
  assert (({[a; b]} : gset Locator) ⊆ dom m) as Hsub.
  { intros k [->%elem_of_singleton| ->%elem_of_singleton]%elem_of_union;
      by apply elem_of_dom. }
  apply subseteq_size in Hsub.
  rewrite size_union, !size_singleton in Hsub; [done|].
  intros k ->%elem_of_singleton Hk%elem_of_singleton. done.
Qed.

(** X2. The conflict report of a set: no plugin is reported against itself,
    only resolved plugins are reported, and a plugin is reported against
    another exactly when the other is reported against it, under the same
    duplicate-product or config-collision reason when that is the reason.
    Hence a report is never about a single plugin: it is empty or names at
    least two. *)
Theorem X2_conflict_report_symmetric
    (plugins : gmap Locator pluginInfoWithAssets) :
  ∃ conflicts,
    conflictsOf plugins = Some conflicts
    ∧ (∀ a, reported conflicts a a = None)
    ∧ (∀ a b e, reported conflicts a b = Some e →
         is_Some (plugins !! a) ∧ is_Some (plugins !! b) ∧ a ≠ b)
    ∧ (∀ a b, is_Some (reported conflicts a b)
              ↔ is_Some (reported conflicts b a))
    ∧ (∀ a b, reported conflicts a b = Some errDifferentVersion
              ↔ reported conflicts b a = Some errDifferentVersion)
    ∧ (∀ a b, reported conflicts a b = Some errConfigCollision
              ↔ reported conflicts b a = Some errConfigCollision)
    ∧ (size conflicts = 0 ∨ 2 ≤ size conflicts).
Proof.
  destruct (conflictsOf_reported plugins) as (conflicts & Hc & Hne & Hrep).
  assert (∀ a b e, reported conflicts a b = Some e →
            is_Some (plugins !! a) ∧ is_Some (plugins !! b) ∧ a ≠ b) as Hkeys.
  { intros a b e. rewrite Hrep.
    destruct (plugins !! a) as [ia|]; [|done].
    destruct (plugins !! b) as [ib|]; [|done]. cbn.
    intros Hp. split; [by eexists|]. split; [by eexists|].
    intros ->. by rewrite pairConflict_refl in Hp. }
  assert (∀ a b, is_Some (reported conflicts a b)
                 ↔ is_Some (reported conflicts b a)) as Hsym.
  { intros a b. rewrite !Hrep.
    destruct (plugins !! a) as [ia|], (plugins !! b) as [ib|]; cbn;
      try (split; intros [? ?]; done).
    rewrite <- !not_eq_None_Some.
    by rewrite (proj1 (pairConflict_sym a b ia ib)). }
  exists conflicts. split; [done|]. split.
  { intros a. destruct (reported conflicts a a) as [e|] eqn:He; [|done].
    by destruct (Hkeys a a e He) as (_ & _ & ?). }
  split; [done|]. split; [done|]. split.
  { intros a b. rewrite !Hrep.
    destruct (plugins !! a) as [ia|], (plugins !! b) as [ib|]; cbn; try done.
    apply (pairConflict_sym a b ia ib). }
  split.
  { intros a b. rewrite !Hrep.
    destruct (plugins !! a) as [ia|], (plugins !! b) as [ib|]; cbn; try done.
    apply (pairConflict_sym a b ia ib). }
  destruct (decide (size conflicts = 0)) as [|Hsz]; [by left|]. right.
  apply map_size_non_empty_iff, map_choose in Hsz as (a & m & Hm).
  destruct (map_choose m) as (b & e & Hb).
  { intros ->. by apply (Hne a). }
  assert (reported conflicts a b = Some e) as Hab.
  { unfold reported. by rewrite Hm. }
  destruct (Hkeys a b e Hab) as (_ & _ & Hneq).
  assert (is_Some (reported conflicts b a)) as [e' Hba].
  { apply Hsym. by eexists. }
  apply (map_two_keys_size conflicts a b); [done|by eexists|].
  unfold reported in Hba. destruct (conflicts !! b); [by eexists|done].
Qed.

(** Appending to a string in a loop concatenates what is appended. *)
Lemma foldl_String_app {A : Type} (f : A → string) (init : string) (l : list A) :
  foldl (λ acc x, acc +:+ f x) init l = init +:+ String.concat "" (f <$> l).
Proof.
  revert init. induction l as [|x l IH]; intros init; cbn [foldl].
  - change (init = init +:+ ""). by rewrite String_app_nil_r.
  - rewrite IH, fmap_cons, String_concat_empty_cons.
    by rewrite String_app_assoc.
Qed.

Lemma foldl_ext_in {A B : Type} (f g : B → A → B) (init : B) (l : list A) :
  (∀ acc x, f acc x = g acc x) → foldl f init l = foldl g init l.
Proof.
  intros Hfg. revert init. induction l as [|x l IH]; intros init; [done|].
  cbn [foldl]. by rewrite Hfg, IH.
Qed.

(** The text of the verification error, block by block. *)
Lemma conflictsErrString_blocks (conflicts : gmap Locator (gmap Locator error)) :
  conflictsErrString conflicts
  = (fmt_d (size conflicts) +:+ " plugins had compatibility issues:")
    +:+ String.concat ""
          ((λ k,
              (LF +:+ strings_Repeat " " IndentSpaces
                  +:+ Locator_String k +:+ ":")
              +:+ String.concat ""
                    ((λ innerK,
                        LF +:+ strings_Repeat " " (IndentSpaces * 2)
                           +:+ (conflicts !!! k) !!! innerK)
                       <$> SortLocators (elements (dom (conflicts !!! k)))))
             <$> SortLocators (elements (dom conflicts))).
Proof.
  unfold conflictsErrString. cbv zeta.
  rewrite <- foldl_String_app. apply foldl_ext_in. intros acc k.
  by rewrite foldl_String_app, String_app_assoc.
Qed.

(** X3. When verification fails, the text of its error is a header with the
    number of plugins that have a conflict, which is at least two, then one
    block per such plugin in Locator order: a line with the plugin, and under
    it, in Locator order of the other plugin, one line per conflict with its
    reason, indented twice as far. *)
Theorem X3_verification_error_text
    (plugins : gmap Locator pluginInfoWithAssets) (msg : error) :
  verifyPluginCompatibility plugins = Some (Some msg) →
  ∃ conflicts,
    conflictsOf plugins = Some conflicts
    ∧ 2 ≤ size conflicts
    ∧ msg
      = (fmt_d (size conflicts) +:+ " plugins had compatibility issues:")
        +:+ String.concat ""
              ((λ k,
                  (LF +:+ strings_Repeat " " IndentSpaces
                      +:+ Locator_String k +:+ ":")
                  +:+ String.concat ""
                        ((λ innerK,
                            LF +:+ strings_Repeat " " (IndentSpaces * 2)
                               +:+ (conflicts !!! k) !!! innerK)
                           <$> SortLocators (elements (dom (conflicts !!! k)))))
                 <$> SortLocators (elements (dom conflicts)))
    ∧ StronglySorted Locator_le (SortLocators (elements (dom conflicts)))
    ∧ (∀ k, k ∈ SortLocators (elements (dom conflicts))
            ↔ ∃ b e, reported conflicts k b = Some e)
    ∧ (∀ k b, b ∈ SortLocators (elements (dom (conflicts !!! k)))
              ↔ ∃ e, reported conflicts k b = Some e)
    ∧ (∀ k b e, reported conflicts k b = Some e →
                (conflicts !!! k) !!! b = e).
Proof.
  intros Hv.
  destruct (conflictsOf_reported plugins) as (conflicts & Hc & Hne & Hrep).
  rewrite (verifyPluginCompatibility_conflictsOf _ _ Hc) in Hv.
  destruct (decide (size conflicts = 0)) as [|Hsz]; [done|].
  injection Hv as <-.
  exists conflicts. split; [done|]. split.
  { apply map_size_non_empty_iff, map_choose in Hsz as (a & m & Hm).
    destruct (map_choose m) as (b & e & Hb).
    { intros ->. by apply (Hne a). }
    assert (reported conflicts a b = Some e) as Hab.
    { unfold reported. by rewrite Hm. }
    pose proof Hab as Hab'. rewrite Hrep in Hab'.
    destruct (plugins !! a) as [ia|] eqn:Ha; [|done].
    destruct (plugins !! b) as [ib|] eqn:Hb'; [|done]. cbn in Hab'.
    assert (a ≠ b) as Hneq.
    { intros ->. by rewrite pairConflict_refl in Hab'. }
    assert (is_Some (reported conflicts b a)) as [e' Hba].
    { rewrite Hrep, Ha, Hb'. cbn. apply not_eq_None_Some.
      rewrite <- (proj1 (pairConflict_sym a b ia ib)). by rewrite Hab'. }
    apply (map_two_keys_size conflicts a b); [done|by eexists|].
    unfold reported in Hba. destruct (conflicts !! b); [by eexists|done]. }
  split; [apply conflictsErrString_blocks|].
  split; [apply SortLocators_Sorted|].
  assert (∀ k m, conflicts !! k = Some m → conflicts !!! k = m) as Htotal.
  { intros k m Hm. by apply lookup_total_correct. }
  split.
  { intros k. rewrite elem_of_SortLocators, elem_of_elements, elem_of_dom.
    unfold reported. split.
    - intros [m Hm]. destruct (map_choose m) as (b & e & Hb).
      { intros ->. by apply (Hne k). }
      exists b, e. by rewrite Hm.
    - intros (b & e & Hr). destruct (conflicts !! k); [by eexists|done]. }
  split.
  { intros k b. rewrite elem_of_SortLocators, elem_of_elements, elem_of_dom.
    unfold reported. destruct (conflicts !! k) as [m|] eqn:Hm.
    - rewrite (Htotal k m Hm). cbn. done.
    - rewrite lookup_total_alt, Hm. cbn. rewrite lookup_empty.
      split; [by intros [? ?]|by intros [? ?]]. }
  intros k b e. unfold reported.
  destruct (conflicts !! k) as [m|] eqn:Hm; [|done]. cbn. intros Hb.
  rewrite (Htotal k m Hm). by apply lookup_total_correct.
Qed.

Lemma rangeM_ext_in {A S : Type} (f g : A → S → option S) (l : list A) (s : S) :
  (∀ x s', x ∈ l → f x s' = g x s') → rangeM f l s = rangeM g l s.
Proof.
  revert s. induction l as [|x l IH]; intros s Hfg; [done|].
  cbn [rangeM]. rewrite (Hfg x s) by (by left).
  destruct (g x s) as [s'|]; [|done]. cbn.
  apply IH. intros y s'' Hy. apply Hfg. by right.
Qed.

(** X4. Go visits the entries of a map in an unspecified order, and
    verification ranges over the map in two nested loops.  Whatever order the
    outer loop follows, and whatever order the inner loop follows in each of
    its runs, the conflict report is the same, and so is the error
    returned. *)
Theorem X4_verification_ignores_iteration_order
    (plugins : gmap Locator pluginInfoWithAssets)
    (orderOf : Locator → list (Locator * pluginInfoWithAssets))
    (keys : list Locator) :
  (∀ currPlugin, orderOf currPlugin ≡ₚ map_to_list plugins) →
  keys ≡ₚ elements (dom plugins) →
  conflictsOf_ranging orderOf keys plugins = conflictsOf plugins
  ∧ verifyPluginCompatibility plugins
    = (conflicts ← conflictsOf_ranging orderOf keys plugins;
       if decide (size conflicts = 0) then Some None
       else Some (Some (conflictsErrString conflicts))).
Proof.
  intros Horder Hkeys.
  assert (conflictsOf_ranging orderOf keys plugins = conflictsOf plugins) as Heq.
  { rewrite <- (conflictsOf_order_irrelevant keys plugins Hkeys).
    unfold conflictsOf_ranging, conflictsOf_in.
    apply rangeM_ext_in. intros k conflicts Hk.
    rewrite verifySinglePluginCompatibility_order_irrelevant; [done| |done].
    rewrite Hkeys, elem_of_elements in Hk. by apply elem_of_dom. }
  split; [done|]. by rewrite Heq.
Qed.

(** One iteration for a plugin that is not a key of the map: the other
    plugin is flagged as a different version when it shares group and
    product, and any other plugin makes the call panic on the nil
    [PluginInfo] of the missing key. *)
Lemma verifyOther_missing (plugin : Locator)
    (plugins : gmap Locator pluginInfoWithAssets)
    (o : Locator) (oi : pluginInfoWithAssets) (errs : gmap Locator error) :
  plugins !! plugin = None → o ≠ plugin →
  verifyOther plugin plugins (o, oi) errs
  = if decide (Group o = Group plugin ∧ Product o = Product plugin)
    then Some (<[o := errDifferentVersion]> errs) else None.
Proof.
  intros Hmiss Hne. unfold verifyOther.
  rewrite decide_False by done.
  destruct (decide (Group o = Group plugin ∧ Product o = Product plugin));
    [done|].
  rewrite Hmiss. cbn. by destruct (decide (Product plugin = Product o)).
Qed.

Lemma rangeM_verifyOther_missing (plugin : Locator)
    (plugins : gmap Locator pluginInfoWithAssets)
    (entries : list (Locator * pluginInfoWithAssets))
    (errs : gmap Locator error) :
  plugins !! plugin = None →
  (∀ e, e ∈ entries → e.1 ≠ plugin) →
  (Forall (λ e, Group e.1 = Group plugin ∧ Product e.1 = Product plugin)
          entries →
   ∃ errs', rangeM (verifyOther plugin plugins) entries errs = Some errs'
     ∧ ∀ o, errs' !! o = if decide (o ∈ entries.*1)
                         then Some errDifferentVersion else errs !! o)
  ∧ (¬ Forall (λ e, Group e.1 = Group plugin ∧ Product e.1 = Product plugin)
              entries →
     rangeM (verifyOther plugin plugins) entries errs = None).
Proof.
  intros Hmiss. revert errs.
  induction entries as [|[o oi] entries IH]; intros errs Hne.
  - split.
    + intros _. exists errs. split; [done|]. intros o.
      destruct (decide (o ∈ ([] : list (Locator * pluginInfoWithAssets)).*1))
        as [Hin|]; [by apply elem_of_nil in Hin|done].
    + intros Hn. exfalso. apply Hn. constructor.
  - assert (o ≠ plugin) as Ho by (apply (Hne (o, oi)); by left).
    assert (∀ e, e ∈ entries → e.1 ≠ plugin) as Hne'.
    { intros e He. apply Hne. by right. }
    cbn [rangeM]. rewrite verifyOther_missing by done.
    destruct (decide (Group o = Group plugin ∧ Product o = Product plugin))
      as [Hgp|Hgp]; cbn [mbind option_bind].
    + destruct (IH (<[o := errDifferentVersion]> errs) Hne') as [IHyes IHno].
      split.
      * intros Hall. apply Forall_cons in Hall as [_ Hall].
        destruct (IHyes Hall) as (errs' & Hrun & Hlook).
        exists errs'. split; [done|]. intros k. rewrite Hlook, fmap_cons.
        cbn [fst].
        destruct (decide (k ∈ entries.*1)) as [Hin|Hnin].
        -- rewrite decide_True; [done|]. by right.
        -- destruct (decide (k = o)) as [->|Hko].
           ++ rewrite lookup_insert_eq. rewrite decide_True; [done|]. by left.
           ++ rewrite lookup_insert_ne by done.
              rewrite decide_False; [done|].
              by intros [?|?]%elem_of_cons.
      * intros Hn. apply IHno. intros Hall. apply Hn. by constructor.
    + split; [|done].
      intros Hall. apply Forall_cons in Hall as [Hgp' _]. done.
Qed.

(** X5. [verifySinglePluginCompatibility] for a Locator that is not a key
    of the map, in whatever order the map is enumerated: when every plugin
    of the map shares group and product with it, each of them is flagged as
    a different version of the same plugin; as soon as the map holds a
    plugin of another group or product, the call panics. *)
Theorem X5_verifySingle_missing_key (plugin : Locator)
    (plugins : gmap Locator pluginInfoWithAssets)
    (entries : list (Locator * pluginInfoWithAssets)) :
  plugins !! plugin = None →
  entries ≡ₚ map_to_list plugins →
  (verifySinglePluginCompatibility_in entries plugin plugins = None
   ↔ ∃ o oi, plugins !! o = Some oi
             ∧ ¬ (Group o = Group plugin ∧ Product o = Product plugin))
  ∧ (∀ errs,
       verifySinglePluginCompatibility_in entries plugin plugins = Some errs →
       ∀ o, errs !! o = (λ _, errDifferentVersion) <$> plugins !! o).
Proof.
  intros Hmiss Hperm.
  assert (∀ o oi, (o, oi) ∈ entries ↔ plugins !! o = Some oi) as Hin.
  { intros o oi. rewrite Hperm. apply elem_of_map_to_list. }
  assert (∀ e, e ∈ entries → e.1 ≠ plugin) as Hne.
  { intros [o oi] He%Hin. cbn. intros ->. congruence. }
  destruct (rangeM_verifyOther_missing plugin plugins entries ∅ Hmiss Hne)
    as [Hyes Hno].
  unfold verifySinglePluginCompatibility_in.
  destruct (decide (Forall (λ e, Group e.1 = Group plugin
                                 ∧ Product e.1 = Product plugin) entries))
    as [Hall|Hnall].
  - destruct (Hyes Hall) as (errs' & Hrun & Hlook). rewrite Hrun. split.
    + split; [done|]. intros (o & oi & Ho & Hgp). exfalso. apply Hgp.
      apply (proj1 (Forall_forall _ _) Hall (o, oi)). by apply Hin.
    + intros errs [= <-] o. rewrite Hlook, lookup_empty.
      destruct (plugins !! o) as [oi|] eqn:Ho; cbn.
      * rewrite decide_True; [done|]. apply list_elem_of_fmap.
        exists (o, oi). split; [done|]. by apply Hin.
      * rewrite decide_False; [done|].
        intros ([o' oi] & -> & He)%list_elem_of_fmap.
        apply Hin in He. cbn in Ho. congruence.
  - rewrite (Hno Hnall). split; [|done]. split; [|done]. intros _.
    apply not_Forall_Exists in Hnall; [|intros e; apply _].
    apply Exists_exists in Hnall as ([o oi] & He & Hgp).
    exists o, oi. split; [by apply Hin|done].
Qed.

(** X6. One iteration of the loop of [resolvePlugins], for a declaration of
    Locator [loc].  It assigns [loc] in exactly one of the two maps and
    leaves every other entry of both alone: either it records an error and
    the set is unchanged, or it enters the plugin in the set and the errors
    are unchanged.  The plugin is entered only after its info was asked for
    and its assets were resolved, in that order; [InfoFromPlugin] is only
    called after [ResolveAndVerify], and [ResolveAssets] only after
    [InfoFromPlugin].  The files outside the directories and the locks held
    are untouched. *)
Theorem X6_resolveOne_touches_own_locator
    (pluginsDir assetsDir downloadsDir : string) (osArch : OSArch)
    (pluginsParam : PluginsParam)
    (plugins : gmap Locator pluginInfoWithAssets)
    (pluginErrors : gmap Locator error) (w : World Disk)
    (currPlugin : SinglePluginParam) :
  ∃ plugins' pluginErrors' w' evs,
    resolveOne pluginsDir assetsDir downloadsDir osArch pluginsParam
               (plugins, pluginErrors, w) currPlugin
    = (plugins', pluginErrors', w')
    ∧ trace w'
      = trace w ++ EvResolveAndVerify (declLocator currPlugin) :: evs
    ∧ (evs = []
       ∨ evs = [EvInfoFromPlugin
                  (filepath_Join pluginsDir
                     (PluginFileName (declLocator currPlugin)))]
       ∨ evs = [EvInfoFromPlugin
                  (filepath_Join pluginsDir
                     (PluginFileName (declLocator currPlugin)));
                EvResolveAssets (godellauncher.Assets currPlugin)])
    ∧ ((plugins' = plugins
        ∧ ∃ err, pluginErrors' = <[declLocator currPlugin := err]> pluginErrors)
       ∨ (pluginErrors' = pluginErrors
          ∧ (∃ info, plugins' = <[declLocator currPlugin := info]> plugins)
          ∧ evs = [EvInfoFromPlugin
                     (filepath_Join pluginsDir
                        (PluginFileName (declLocator currPlugin)));
                   EvResolveAssets (godellauncher.Assets currPlugin)]))
    ∧ (∀ k, k ≠ declLocator currPlugin →
            plugins' !! k = plugins !! k
            ∧ pluginErrors' !! k = pluginErrors !! k)
    ∧ (∀ k, is_Some (pluginErrors !! k) → is_Some (pluginErrors' !! k))
    ∧ files w' = files w ∧ held w' = held w.
Proof.
  unfold resolveOne, ResolveAndVerify, InfoFromPlugin, ResolveAssets.
  fold (declLocator currPlugin).
  cbn [disk logEvent setDisk files held trace].
  assert (∀ (err : error) k,
            is_Some (pluginErrors !! k) →
            is_Some (<[declLocator currPlugin := err]> pluginErrors !! k))
    as Hkeep.
  { intros err k Hk. destruct (decide (declLocator currPlugin = k)) as [->|Hne].
    - rewrite lookup_insert_eq. by eexists.
    - by rewrite lookup_insert_ne. }
  destruct (resolveArtifact _ _ _ _ _ _) as [d [err|]]; cbn [negb].
  { eexists _, _, _, []. split; [reflexivity|]. cbn.
    split; [done|]. split; [by left|]. split; [left; eauto|].
    split; [|by eauto].
    intros k Hk. by rewrite lookup_insert_ne. }
  destruct (InfoFromPlugin_ext _ _) as [d1 [info|err]].
  2:{ eexists _, _, _, [EvInfoFromPlugin _]. split; [reflexivity|]. cbn.
      rewrite <- app_assoc. split; [done|]. split; [right; by left|].
      split; [left; eauto|]. split; [|by eauto].
      intros k Hk. by rewrite lookup_insert_ne. }
  destruct (ResolveAssets_ext _ _ _ _ _ _) as [d2 [assets|err]].
  - eexists _, _, _, [EvInfoFromPlugin _; EvResolveAssets _].
    split; [reflexivity|]. cbn. rewrite <- !app_assoc.
    split; [done|]. split; [right; by right|].
    split; [right; eauto|]. split; [|done].
    intros k Hk. by rewrite lookup_insert_ne.
  - eexists _, _, _, [EvInfoFromPlugin _; EvResolveAssets _].
    split; [reflexivity|]. cbn. rewrite <- !app_assoc.
    split; [done|]. split; [right; by right|].
    split; [left; eauto|]. split; [|by eauto].
    intros k Hk. by rewrite lookup_insert_ne.
Qed.







(** ** Without a cache path *)

Lemma LoadPluginsTasks_steps (pluginsParam : PluginsParam) (w : World Disk) :
  LoadPluginsTasks pluginsParam w
  = match ResourceDirs (disk w) with
    | Err err => (Some (Err err), w)
    | Ok (pluginsDir, assetsDir, downloadsDir) =>
        match resolvePlugins pluginsDir assetsDir downloadsDir osarch_Current
                             pluginsParam w with
        | (Err err, w1) => (Some (Err err), w1)
        | (Ok plugins, w1) =>
            match verifyPluginCompatibility plugins with
            | None => (None, w1)
            | Some (Some err) => (Some (Err err), w1)
            | Some None => (Ok <$> aggregate pluginsDir assetsDir plugins, w1)
            end
        end
    end.
Proof.
  unfold LoadPluginsTasks, loadPluginsTasks, loadCache, resolveFresh.
  destruct (ResourceDirs (disk w)) as [[[pluginsDir assetsDir] downloadsDir]|err];
    [|done].
  rewrite decide_False by (by intros Hne; apply Hne).
  destruct (resolvePlugins _ _ _ _ _ _) as [[plugins|err] w1]; [|done].
  destruct (verifyPluginCompatibility plugins) as [[err|]|]; [done| |done].
  by rewrite decide_False by (by intros Hne; apply Hne).
Qed.

(** Resolution neither reads nor writes the files outside the three
    directories: started with other files, it gives the same outcomes and
    the same world but for those files. *)
Lemma attemptDeclaration_other_files
    (pluginsDir assetsDir downloadsDir : string) (osArch : OSArch)
    (pluginsParam : PluginsParam) (currPlugin : SinglePluginParam)
    (w : World Disk) (fs : gmap string File) :
  attemptDeclaration pluginsDir assetsDir downloadsDir osArch pluginsParam
                     currPlugin (mkWorld (disk w) fs (held w) (trace w))
  = let r := attemptDeclaration pluginsDir assetsDir downloadsDir osArch
                                pluginsParam currPlugin w in
    (r.1, mkWorld (disk r.2) fs (held r.2) (trace r.2)).
Proof.
  unfold attemptDeclaration, InfoFromPlugin, ResolveAssets.
  cbn [disk logEvent setDisk files held trace].
  destruct (resolveArtifact _ _ _ _ _ _) as [d [err|]]; [done|].
  destruct (InfoFromPlugin_ext _ _) as [d1 [info|err]]; [|done].
  by destruct (ResolveAssets_ext _ _ _ _ _ _) as [d2 [assets|err]].
Qed.

Lemma attemptAll_other_files
    (pluginsDir assetsDir downloadsDir : string) (osArch : OSArch)
    (pluginsParam : PluginsParam) (decls : list SinglePluginParam)
    (w : World Disk) (fs : gmap string File) :
  attemptAll pluginsDir assetsDir downloadsDir osArch pluginsParam decls
             (mkWorld (disk w) fs (held w) (trace w))
  = let r := attemptAll pluginsDir assetsDir downloadsDir osArch pluginsParam
                        decls w in
    (r.1, mkWorld (disk r.2) fs (held r.2) (trace r.2)).
Proof.
  revert w. induction decls as [|currPlugin decls IH]; intros w; [done|].
  cbn [attemptAll]. rewrite attemptDeclaration_other_files. cbv zeta.
  destruct (attemptDeclaration _ _ _ _ _ _ w) as [[loc out] w1]. cbn [fst snd].
  rewrite IH. cbv zeta.
  by destruct (attemptAll _ _ _ _ _ _ w1) as [outs w2].
Qed.

Lemma resolvePlugins_other_files
    (pluginsDir assetsDir downloadsDir : string) (osArch : OSArch)
    (pluginsParam : PluginsParam) (w : World Disk) (fs : gmap string File) :
  resolvePlugins pluginsDir assetsDir downloadsDir osArch pluginsParam
                 (mkWorld (disk w) fs (held w) (trace w))
  = let r := resolvePlugins pluginsDir assetsDir downloadsDir osArch
                            pluginsParam w in
    (r.1, mkWorld (disk r.2) fs (held r.2) (trace r.2)).
Proof.
  unfold resolvePlugins, lockedfile_Lock. cbn [disk files held trace].
  destruct (lockError _ _) as [err|]; [done|].
  rewrite !resolvePluginsLocked_attemptAll.
  set (path := filepath_Join pluginsDir "godel-resolver.lock").
  set (wl := logEvent (EvLock path)
               (mkWorld (disk w) (files w) (path :: held w) (trace w))).
  change (logEvent (EvLock path) (mkWorld (disk w) fs (path :: held w) (trace w)))
    with (mkWorld (disk wl) fs (held wl) (trace wl)).
  rewrite attemptAll_other_files. cbv zeta.
  by destruct (attemptAll _ _ _ _ _ _ wl) as [outs w2].
Qed.

(** X9. Without a cache path, [LoadPluginsTasks] neither reads nor writes
    any file outside the plugins, assets and downloads directories: it
    returns the same result and does the same to the directories whatever
    those files hold, it leaves them as they are, and no write is among the
    calls it makes. *)
Theorem X9_no_cache_path_no_file_access (pluginsParam : PluginsParam)
    (w : World Disk) (fs : gmap string File) :
  (LoadPluginsTasks pluginsParam
     (mkWorld (disk w) fs (held w) (trace w))).1
  = (LoadPluginsTasks pluginsParam w).1
  ∧ disk (LoadPluginsTasks pluginsParam
            (mkWorld (disk w) fs (held w) (trace w))).2
    = disk (LoadPluginsTasks pluginsParam w).2
  ∧ files (LoadPluginsTasks pluginsParam w).2 = files w
  ∧ ∃ evs,
      trace (LoadPluginsTasks pluginsParam w).2 = trace w ++ evs
      ∧ Forall (λ ev, ¬ writeEvent ev) evs.
Proof.
  rewrite !LoadPluginsTasks_steps. cbn [disk].
  destruct (ResourceDirs (disk w)) as [[[pluginsDir assetsDir] downloadsDir]|err].
  2:{ cbn. repeat split. exists []. by rewrite app_nil_r. }
  rewrite resolvePlugins_other_files. cbv zeta.
  destruct (resolvePlugins_world pluginsDir assetsDir downloadsDir
              osarch_Current pluginsParam w)
    as (r & w1 & evs & Hres & Htrace & Hnw & Hfiles).
  rewrite Hres. cbn [fst snd].
  destruct r as [plugins|err].
  2:{ cbn. repeat split; [done|]. by exists evs. }
  destruct (verifyPluginCompatibility plugins) as [[err|]|];
    cbn; (repeat split; [done|]); by exists evs.
Qed.

(** ** With a cache path and no cache file yet *)

Lemma loadPluginsTasks_cold_steps (pluginsParam : PluginsParam)
    (cachePath : string) (w : World Disk) :
  cachePath ≠ "" → files w !! cachePath = None →
  loadPluginsTasks pluginsParam cachePath w
  = match ResourceDirs (disk w) with
    | Err err => (Some (Err err), w)
    | Ok (pluginsDir, assetsDir, downloadsDir) =>
        match resolvePlugins pluginsDir assetsDir downloadsDir osarch_Current
                             pluginsParam w with
        | (Err err, w1) => (Some (Err err), w1)
        | (Ok plugins, w1) =>
            match verifyPluginCompatibility plugins with
            | None => (None, w1)
            | Some (Some err) => (Some (Err err), w1)
            | Some None =>
                match marshalPluginsInfoJSON plugins with
                | Err err =>
                    (Some (Err (errors_Wrapf err
                                  "failed to marshal plugin information")), w1)
                | Ok pluginsJSON =>
                    match writeFileUsingRename cachePath pluginsJSON w1 with
                    | (Some err, w2) =>
                        (Some (Err (errors_Wrapf err
                           ("failed to write plugin information to cache file at "
                              +:+ fmt_q cachePath))), w2)
                    | (None, w2) =>
                        (Ok <$> aggregate pluginsDir assetsDir plugins, w2)
                    end
                end
            end
        end
    end.
Proof.
  intros Hpath Hfile.
  unfold loadPluginsTasks, loadCache, os_ReadFile, resolveFresh.
  destruct (ResourceDirs (disk w)) as [[[pluginsDir assetsDir] downloadsDir]|err];
    [|done].
  rewrite decide_True, Hfile by done. cbn [IsNotExist negb].
  destruct (resolvePlugins _ _ _ _ _ _) as [[plugins|err] w1]; [|done].
  destruct (verifyPluginCompatibility plugins) as [[err|]|]; [done| |done].
  rewrite decide_True by done.
  destruct (marshalPluginsInfoJSON plugins) as [pluginsJSON|err]; [|done].
  by destruct (writeFileUsingRename _ _ _) as [[err|] w2].
Qed.

(** X10. A cache path whose file does not exist yet does not change what
    the call returns.  Every result it returns, [LoadPluginsTasks] returns
    too; every error of [LoadPluginsTasks] it returns too; and when
    [LoadPluginsTasks] returns tasks it returns the same tasks, unless
    encoding or writing the cache fails, which it reports as an error although
    resolution and verification succeeded.  The directories end up the same
    in both. *)
Theorem X10_cold_cache_same_result (pluginsParam : PluginsParam)
    (cachePath : string) (w : World Disk) :
  cachePath ≠ "" → files w !! cachePath = None →
  (∀ t, (loadPluginsTasks pluginsParam cachePath w).1 = Some (Ok t) →
        (LoadPluginsTasks pluginsParam w).1 = Some (Ok t))
  ∧ (∀ err, (LoadPluginsTasks pluginsParam w).1 = Some (Err err) →
            (loadPluginsTasks pluginsParam cachePath w).1 = Some (Err err))
  ∧ (∀ t, (LoadPluginsTasks pluginsParam w).1 = Some (Ok t) →
          (loadPluginsTasks pluginsParam cachePath w).1 = Some (Ok t)
          ∨ ∃ cause,
              (loadPluginsTasks pluginsParam cachePath w).1
              = Some (Err (errors_Wrapf cause
                             "failed to marshal plugin information"))
              ∨ (loadPluginsTasks pluginsParam cachePath w).1
                = Some (Err (errors_Wrapf cause
                     ("failed to write plugin information to cache file at "
                        +:+ fmt_q cachePath))))
  ∧ disk (loadPluginsTasks pluginsParam cachePath w).2
    = disk (LoadPluginsTasks pluginsParam w).2.
Proof.
  intros Hpath Hfile.
  rewrite loadPluginsTasks_cold_steps, LoadPluginsTasks_steps by done.
  destruct (ResourceDirs (disk w)) as [[[pluginsDir assetsDir] downloadsDir]|err];
    [|done].
  destruct (resolvePlugins _ _ _ _ _ _) as [[plugins|err] w1]; [|done].
  destruct (verifyPluginCompatibility plugins) as [[err|]|]; [done| |done].
  rewrite aggregate_total.
  destruct (marshalPluginsInfoJSON plugins) as [pluginsJSON|err].
  2:{ cbn. split; [done|]. split; [done|]. split; [|done].
      intros t _. right. exists err. by left. }
  unfold writeFileUsingRename. cbn [files logEvent].
  destruct (renameError cachePath (files w1)) as [err|]; cbn.
  - split; [done|]. split; [done|]. split; [|done].
    intros t _. right. exists err. by right.
  - split; [done|]. split; [done|]. split; [|done].
    intros t Ht. by left.
Qed.


(** X12. The package never calls a method on a nil [PluginInfo]:
    [verifySinglePluginCompatibility] returns for every key of the map,
    verification and aggregation return for every map, and
    [loadPluginsTasks] returns for every input. *)
Theorem X12_no_nil_PluginInfo_panic :
  (∀ (plugins : gmap Locator pluginInfoWithAssets) plugin,
     is_Some (plugins !! plugin) →
     is_Some (verifySinglePluginCompatibility plugin plugins))
  ∧ (∀ plugins : gmap Locator pluginInfoWithAssets,
       is_Some (verifyPluginCompatibility plugins))
  ∧ (∀ pluginsDir assetsDir (plugins : gmap Locator pluginInfoWithAssets),
       is_Some (aggregate pluginsDir assetsDir plugins))
  ∧ (∀ pluginsParam cachePath (w : World Disk),
       is_Some (loadPluginsTasks pluginsParam cachePath w).1).
Proof.
  split.
  { intros plugins plugin [curr Hcurr].
    destruct (verifySinglePluginCompatibility_lookup plugin plugins curr Hcurr)
      as (errs & -> & _). by eexists. }
  split; [apply verifyPluginCompatibility_total|].
  split.
  { intros pluginsDir assetsDir plugins. rewrite aggregate_total. by eexists. }
  apply loadPluginsTasks_no_panic.
Qed.

(** ** What verification guarantees about the tasks returned *)

Lemma verified_disjoint_taskNames
    (plugins : gmap Locator pluginInfoWithAssets) (a b : Locator)
    (ia ib : pluginInfoWithAssets) (n : string) :
  verifyPluginCompatibility plugins = Some None →
  plugins !! a = Some ia → plugins !! b = Some ib → a ≠ b →
  n ∈ taskNames ia → n ∉ taskNames ib.
Proof.
  intros Hv Ha Hb Hne.
  destruct (conflictsOf_empty_iff plugins) as (conflicts & Hc & Hempty).
  rewrite (verifyPluginCompatibility_conflictsOf _ _ Hc) in Hv.
  destruct (decide (size conflicts = 0)) as [Hsz|]; [|done].
  assert (pairConflict a ia b ib = None) as Hnone by (by apply Hempty).
  apply pairConflict_None_iff in Hnone; [|done].
  by apply Hnone.
Qed.

Lemma fmap_concat {A B : Type} (f : A → B) (ls : list (list A)) :
  f <$> concat ls = concat ((λ l : list A, f <$> l) <$> ls).
Proof.
  induction ls as [|l ls IH]; [done|].
  cbn [concat]. by rewrite fmap_app, IH.
Qed.

Lemma elem_of_concat_fmap {A B : Type} (f : A → list B) (l : list A) (y : B) :
  y ∈ concat (f <$> l) ↔ ∃ x, x ∈ l ∧ y ∈ f x.
Proof.
  induction l as [|x l IH].
  - split; [by intros ?%elem_of_nil | by intros (? & ?%elem_of_nil & _)].
  - rewrite fmap_cons. cbn [concat]. rewrite elem_of_app, IH. split.
    + intros [Hy|(x' & Hx' & Hy)]; [exists x; split; [by left|done]|].
      exists x'. split; [by right|done].
    + intros (x' & [->|Hx']%elem_of_cons & Hy); [by left|].
      right. by exists x'.
Qed.

(** X13. What verification buys.  Take a set that passes verification, and
    plugins whose task names do not depend on the paths the tasks are bound
    to.  Then tasks of two different plugins never share a name; and when
    no plugin declares a name twice, the names of all the tasks that
    aggregation returns are different from one another. *)
Theorem X13_verified_tasks_have_distinct_names
    (pluginsDir assetsDir : string)
    (plugins : gmap Locator pluginInfoWithAssets) :
  verifyPluginCompatibility plugins = Some None →
  (∀ k info exec assets,
     plugins !! k = Some info →
     Name <$> Tasks (PluginInfo info) exec assets = taskNames info) →
  (∀ k1 k2 info1 info2 t1 t2,
     plugins !! k1 = Some info1 → plugins !! k2 = Some info2 → k1 ≠ k2 →
     t1 ∈ boundTasks pluginsDir assetsDir (k1, info1) →
     t2 ∈ boundTasks pluginsDir assetsDir (k2, info2) →
     Name t1 ≠ Name t2)
  ∧ ((∀ k info, plugins !! k = Some info → NoDup (taskNames info)) →
     ∃ tasks upgradeConfigTasks,
       aggregate pluginsDir assetsDir plugins
       = Some (tasks, upgradeConfigTasks)
       ∧ NoDup (Name <$> tasks)).
Proof.
  intros Hv Hnames.
  assert (∀ k info, plugins !! k = Some info →
            Name <$> boundTasks pluginsDir assetsDir (k, info)
            = taskNames info) as Hbound.
  { intros k info Hk. unfold boundTasks. cbn [fst snd]. by eapply Hnames. }
  split.
  { intros k1 k2 info1 info2 t1 t2 Hk1 Hk2 Hne Ht1 Ht2 Heq.
    apply (verified_disjoint_taskNames plugins k1 k2 info1 info2 (Name t1));
      try done.
    - rewrite <- (Hbound k1 info1 Hk1). by apply list_elem_of_fmap_2.
    - rewrite Heq, <- (Hbound k2 info2 Hk2). by apply list_elem_of_fmap_2. }
  intros Hunique. eexists _, _. split; [apply aggregate_total|].
  rewrite fmap_concat, <- list_fmap_compose.
  assert (NoDup (sortedEntries plugins).*1) as Hnd.
  { rewrite sortedEntries_fst, SortLocators_Permutation. apply NoDup_elements. }
  assert (∀ e, e ∈ sortedEntries plugins → plugins !! e.1 = Some e.2) as Hin.
  { intros [k info]. apply elem_of_sortedEntries. }
  induction (sortedEntries plugins) as [|[k info] es IH]; [constructor|].
  rewrite fmap_cons in Hnd. apply NoDup_cons in Hnd as [Hk Hnd].
  assert (plugins !! k = Some info) as Hki by (apply (Hin (k, info)); by left).
  rewrite fmap_cons. cbn [concat compose].
  apply NoDup_app. split; [|split].
  - rewrite (Hbound k info Hki). by eapply Hunique.
  - intros n Hn Hn'. rewrite (Hbound k info Hki) in Hn.
    apply elem_of_concat_fmap in Hn' as ([k' info'] & He & Hn').
    assert (plugins !! k' = Some info') as Hk'
      by (apply (Hin (k', info')); by right).
    cbn [compose] in Hn'. rewrite (Hbound k' info' Hk') in Hn'.
    apply (verified_disjoint_taskNames plugins k k' info info' n); try done.
    intros ->. apply Hk. apply list_elem_of_fmap. by exists (k', info').
  - apply IH; [done|]. intros e He. apply Hin. by right.
Qed.

(** X14. The reason reported for a pair depends on the two plugins alone.
    When more plugins are added to a set, every conflict of the smaller set
    is reported for the larger one with the same reason, and nothing new is
    reported between two plugins of the smaller set.  So a set that passes
    verification keeps passing when plugins are removed, and a set that
    fails keeps failing when plugins are added. *)
Theorem X14_conflicts_are_local
    (plugins plugins' : gmap Locator pluginInfoWithAssets) :
  plugins ⊆ plugins' →
  ∃ conflicts conflicts',
    conflictsOf plugins = Some conflicts
    ∧ conflictsOf plugins' = Some conflicts'
    ∧ (∀ a b, is_Some (plugins !! a) → is_Some (plugins !! b) →
              reported conflicts' a b = reported conflicts a b)
    ∧ (∀ a b e, reported conflicts a b = Some e →
                reported conflicts' a b = Some e)
    ∧ (verifyPluginCompatibility plugins' = Some None →
       verifyPluginCompatibility plugins = Some None)
    ∧ (∀ err, verifyPluginCompatibility plugins = Some (Some err) →
              ∃ err', verifyPluginCompatibility plugins' = Some (Some err')).
Proof.
  intros Hsub.
  destruct (conflictsOf_reported plugins) as (c & Hc & _ & Hrep).
  destruct (conflictsOf_reported plugins') as (c' & Hc' & _ & Hrep').
  assert (∀ a b, is_Some (plugins !! a) → is_Some (plugins !! b) →
                 reported c' a b = reported c a b) as Hsame.
  { intros a b [ia Ha] [ib Hb]. rewrite Hrep, Hrep', Ha, Hb.
    by rewrite (lookup_weaken _ _ _ _ Ha Hsub), (lookup_weaken _ _ _ _ Hb Hsub). }
  assert (∀ a b e, reported c a b = Some e → reported c' a b = Some e) as Hkeep.
  { intros a b e Hr. rewrite Hsame; [done| |].
    - rewrite Hrep in Hr. destruct (plugins !! a); [by eexists|done].
    - rewrite Hrep in Hr. destruct (plugins !! a); [|done].
      destruct (plugins !! b); [by eexists|done]. }
  assert (size c' = 0 → size c = 0) as Hsize.
  { rewrite !map_size_empty_iff. intros ->.
    destruct (map_choose_or_empty c) as [(a & m & Hm)|]; [|done].
    exfalso.
    destruct (conflictsOf_reported plugins) as (c2 & Hc2 & Hne & _).
    assert (c2 = c) as -> by congruence.
    destruct (map_choose m) as (b & e & Hb).
    { intros ->. by apply (Hne a). }
    assert (reported c a b = Some e) as Hr by (unfold reported; by rewrite Hm).
    apply Hkeep in Hr. unfold reported in Hr. by rewrite lookup_empty in Hr. }
  exists c, c'. split; [done|]. split; [done|]. split; [done|].
  split; [done|].
  rewrite (verifyPluginCompatibility_conflictsOf _ _ Hc),
          (verifyPluginCompatibility_conflictsOf _ _ Hc').
  split.
  - destruct (decide (size c' = 0)) as [Hz|]; [|done].
    intros _. by rewrite decide_True by auto.
  - intros err. destruct (decide (size c = 0)) as [|Hnz]; [done|].
    intros _. rewrite decide_False by auto. by eexists.
Qed.



Lemma loadPluginsTasks_miss_steps (pluginsParam : PluginsParam)
    (cachePath : string) (w : World Disk) :
  cachePath ≠ "" → loadCache cachePath w = Ok None →
  loadPluginsTasks pluginsParam cachePath w
  = match ResourceDirs (disk w) with
    | Err err => (Some (Err err), w)
    | Ok (pluginsDir, assetsDir, downloadsDir) =>
        match resolvePlugins pluginsDir assetsDir downloadsDir osarch_Current
                             pluginsParam w with
        | (Err err, w1) => (Some (Err err), w1)
        | (Ok plugins, w1) =>
            match verifyPluginCompatibility plugins with
            | None => (None, w1)
            | Some (Some err) => (Some (Err err), w1)
            | Some None =>
                match marshalPluginsInfoJSON plugins with
                | Err err =>
                    (Some (Err (errors_Wrapf err
                                  "failed to marshal plugin information")), w1)
                | Ok pluginsJSON =>
                    match writeFileUsingRename cachePath pluginsJSON w1 with
                    | (Some err, w2) =>
                        (Some (Err (errors_Wrapf err
                           ("failed to write plugin information to cache file at "
                              +:+ fmt_q cachePath))), w2)
                    | (None, w2) =>
                        (Ok <$> aggregate pluginsDir assetsDir plugins, w2)
                    end
                end
            end
        end
    end.
Proof.
  intros Hpath Hcache. unfold loadPluginsTasks, resolveFresh.
  destruct (ResourceDirs (disk w)) as [[[pluginsDir assetsDir] downloadsDir]|err];
    [|done].
  rewrite Hcache.
  destruct (resolvePlugins _ _ _ _ _ _) as [[plugins|err] w1]; [|done].
  destruct (verifyPluginCompatibility plugins) as [[err|]|]; [done| |done].
  rewrite decide_True by done.
  destruct (marshalPluginsInfoJSON plugins) as [pluginsJSON|err]; [|done].
  by destruct (writeFileUsingRename _ _ _) as [[err|] w2].
Qed.

(** X16. A cache file whose bytes decode without error to the nil map is
    treated as if there were no cache file: the call goes on to fresh
    resolution, and an error of resolution is what it returns.  When it
    returns tasks, they are those of the freshly resolved and verified set,
    and the cache file now holds the encoding of that set. *)
Theorem X16_nil_cached_map_is_a_miss (pluginsParam : PluginsParam)
    (cachePath : string) (w : World Disk)
    (pluginsDir assetsDir downloadsDir : string)
    (pluginsConfigCacheBytes : list Byte.byte) :
  ResourceDirs (disk w) = Ok (pluginsDir, assetsDir, downloadsDir) →
  cachePath ≠ "" →
  files w !! cachePath = Some (FileContent pluginsConfigCacheBytes) →
  unmarshalPluginsInfoJSON pluginsConfigCacheBytes = (None, None) →
  ∃ out w' r w1,
    loadPluginsTasks pluginsParam cachePath w = (out, w')
    ∧ resolvePlugins pluginsDir assetsDir downloadsDir osarch_Current
                     pluginsParam w = (r, w1)
    ∧ (∀ err, r = Err err → out = Some (Err err) ∧ w' = w1)
    ∧ (∀ t, out = Some (Ok t) →
         ∃ plugins pluginsJSON,
           r = Ok plugins
           ∧ verifyPluginCompatibility plugins = Some None
           ∧ marshalPluginsInfoJSON plugins = Ok pluginsJSON
           ∧ files w' !! cachePath = Some (FileContent pluginsJSON)
           ∧ aggregate pluginsDir assetsDir plugins = Some t).
Proof.
  intros Hdirs Hpath Hfile Hdecode.
  assert (loadCache cachePath w = Ok None) as Hcache.
  { unfold loadCache, os_ReadFile. by rewrite decide_True, Hfile, Hdecode. }
  rewrite (loadPluginsTasks_miss_steps _ _ _ Hpath Hcache), Hdirs.
  destruct (resolvePlugins _ _ _ _ _ _) as [[plugins|err] w1] eqn:Hres.
  2:{ eexists _, _, _, _. split; [reflexivity|]. split; [reflexivity|].
      split; [by intros ? [= <-]|done]. }
  destruct (verifyPluginCompatibility plugins) as [[err|]|] eqn:Hv.
  1,3: (eexists _, _, _, _; split; [reflexivity|]; split; [reflexivity|];
        split; done).
  destruct (marshalPluginsInfoJSON plugins) as [pluginsJSON|err] eqn:Hm.
  2:{ eexists _, _, _, _. split; [reflexivity|]. split; [reflexivity|].
      split; done. }
  unfold writeFileUsingRename. cbn [files logEvent].
  destruct (renameError cachePath (files w1)) as [err|].
  { eexists _, _, _, _. split; [reflexivity|]. split; [reflexivity|].
    split; done. }
  eexists _, _, _, _. split; [reflexivity|]. split; [reflexivity|].
  split; [done|]. intros t Ht.
  exists plugins, pluginsJSON. split; [done|]. split; [done|]. split; [done|].
  cbn [files]. split; [apply lookup_insert_eq|].
  rewrite aggregate_total in Ht |- *. cbn in Ht. congruence.
Qed.

End plugins_more.

(** ** The further properties at concrete inputs *)

Example verifySingle_missing_key_panics :
  verifySinglePluginCompatibility DemoMore.g1p1v3 sharedTasks = None.
Proof. vm_compute. reflexivity. Qed.

Example verify_compatible :
  verifyPluginCompatibility DemoMore.compatible = Some None.
Proof. vm_compute. reflexivity. Qed.

Lemma X3_verification_error_text_witness :
  verifyPluginCompatibility twoVersions
  = Some (Some "2 plugins had compatibility issues:
    g1:p1:1.0:
        different version of the same plugin
    g1:p1:2.0:
        different version of the same plugin")
  ∧ ∃ conflicts,
      conflictsOf twoVersions = Some conflicts
      ∧ 2 ≤ size conflicts
      ∧ StronglySorted Locator_le (SortLocators (elements (dom conflicts)))
      ∧ (∀ k, k ∈ SortLocators (elements (dom conflicts))
              ↔ ∃ b e, reported conflicts k b = Some e).
Proof.
  assert (verifyPluginCompatibility twoVersions
          = Some (Some "2 plugins had compatibility issues:
    g1:p1:1.0:
        different version of the same plugin
    g1:p1:2.0:
        different version of the same plugin")) as Hv.
  { vm_compute. reflexivity. }
  split; [exact Hv|].
  destruct (X3_verification_error_text twoVersions _ Hv)
    as (conflicts & Hc & Hsize & _ & Hsorted & Hkeys & _).
  exists conflicts. split; [exact Hc|]. split; [exact Hsize|].
  split; [exact Hsorted|exact Hkeys].
Defined.

Lemma X4_verification_ignores_iteration_order_witness :
  reverse (map_to_list twoVersions) ≡ₚ map_to_list twoVersions
  ∧ reverse (elements (dom twoVersions)) ≡ₚ elements (dom twoVersions)
  ∧ conflictsOf_ranging (λ _, reverse (map_to_list twoVersions))
                        (reverse (elements (dom twoVersions))) twoVersions
    = conflictsOf twoVersions
  ∧ verifyPluginCompatibility twoVersions
    = (conflicts ←
         conflictsOf_ranging (λ _, reverse (map_to_list twoVersions))
                             (reverse (elements (dom twoVersions)))
                             twoVersions;
       if decide (size conflicts = 0) then Some None
       else Some (Some (conflictsErrString conflicts))).
Proof.
  split; [apply reverse_Permutation|].
  split; [apply reverse_Permutation|].
  apply (X4_verification_ignores_iteration_order twoVersions
           (λ _, reverse (map_to_list twoVersions))
           (reverse (elements (dom twoVersions)))).
  - intros _. apply reverse_Permutation.
  - apply reverse_Permutation.
Defined.

Lemma X5_verifySingle_missing_key_witness :
  (twoVersions !! DemoMore.g1p1v3 = None
   ∧ ∀ errs,
       verifySinglePluginCompatibility_in (map_to_list twoVersions)
                                          DemoMore.g1p1v3 twoVersions
       = Some errs →
       ∀ o, errs !! o = (λ _, errDifferentVersion) <$> twoVersions !! o)
  ∧ (sharedTasks !! DemoMore.g1p1v3 = None
     ∧ verifySinglePluginCompatibility_in (map_to_list sharedTasks)
                                          DemoMore.g1p1v3 sharedTasks
       = None).
Proof.
  split.
  - split; [reflexivity|].
    apply (X5_verifySingle_missing_key DemoMore.g1p1v3 twoVersions
             (map_to_list twoVersions)); reflexivity.
  - split; [reflexivity|].
    destruct (X5_verifySingle_missing_key DemoMore.g1p1v3 sharedTasks
                (map_to_list sharedTasks)) as [Hpanic _];
      [reflexivity|reflexivity|].
    apply Hpanic.
    exists g3p3v1, (mkPluginInfoWithAssets
                      (info ["build"; "lint"; "fmt"] false) []).
    split; [reflexivity|]. intros [_ Hp]. discriminate Hp.
Defined.



Lemma X10_cold_cache_same_result_witness :
  "cache.json" ≠ ""
  ∧ files emptyWorld !! "cache.json" = None
  ∧ (LoadPluginsTasks DemoWarm.twoDecls emptyWorld).1
    = (loadPluginsTasks DemoWarm.twoDecls "cache.json" emptyWorld).1
  ∧ disk (loadPluginsTasks DemoWarm.twoDecls "cache.json" emptyWorld).2
    = disk (LoadPluginsTasks DemoWarm.twoDecls emptyWorld).2.
Proof.
  assert ("cache.json" ≠ "") as Hpath by discriminate.
  split; [exact Hpath|]. split; [reflexivity|].
  destruct (X10_cold_cache_same_result DemoWarm.twoDecls "cache.json"
              emptyWorld Hpath eq_refl) as (Hsame & _ & _ & Hdisk).
  split; [|exact Hdisk].
  apply (Hsame ([mkTask "plugins/p1-1.0" "plugins/p1-1.0" [];
                 mkTask "plugins/p3-1.0" "plugins/p3-1.0" []], [])).
  vm_compute. reflexivity.
Defined.


Lemma X13_verified_tasks_have_distinct_names_witness :
  verifyPluginCompatibility DemoMore.compatible = Some None
  ∧ ∃ tasks upgradeConfigTasks,
      aggregate "plugins" "assets" DemoMore.compatible
      = Some (tasks, upgradeConfigTasks)
      ∧ NoDup (Name <$> tasks).
Proof.
  assert (verifyPluginCompatibility DemoMore.compatible = Some None) as Hv.
  { vm_compute. reflexivity. }
  assert (∀ k i, DemoMore.compatible !! k = Some i →
            i = mkPluginInfoWithAssets (info ["build"; "test"] true) []
            ∨ i = mkPluginInfoWithAssets (info ["lint"] false) []) as Hcases.
  { intros k i. unfold DemoMore.compatible.
    destruct (decide (k = g1p1v1)) as [->|Hne1].
    { rewrite lookup_insert_eq. intros [= <-]. by left. }
    rewrite lookup_insert_ne by done.
    destruct (decide (k = g3p3v1)) as [->|Hne3].
    { rewrite lookup_singleton_eq. intros [= <-]. by right. }
    rewrite lookup_singleton_ne by done. intros Hk. discriminate Hk. }
  split; [exact Hv|].
  destruct (X13_verified_tasks_have_distinct_names "plugins" "assets"
              DemoMore.compatible Hv) as [_ Hall].
  - intros k i exec assets Hk.
    destruct (Hcases k i Hk) as [-> | ->]; reflexivity.
  - apply Hall. intros k i Hk.
    destruct (Hcases k i Hk) as [-> | ->].
    + apply NoDup_cons. split; [|apply NoDup_singleton].
      intros Hin%list_elem_of_singleton. discriminate Hin.
    + apply NoDup_singleton.
Defined.

Lemma X14_conflicts_are_local_witness :
  twoVersions
  ⊆ <[g3p3v1 := mkPluginInfoWithAssets (info ["lint"] false) []]> twoVersions
  ∧ ∃ err',
      verifyPluginCompatibility
        (<[g3p3v1 := mkPluginInfoWithAssets (info ["lint"] false) []]>
           twoVersions)
      = Some (Some err').
Proof.
  assert (twoVersions
          ⊆ <[g3p3v1 := mkPluginInfoWithAssets (info ["lint"] false) []]>
              twoVersions) as Hsub.
  { apply insert_subseteq. reflexivity. }
  split; [exact Hsub|].
  destruct (X14_conflicts_are_local twoVersions _ Hsub)
    as (conflicts & conflicts' & _ & _ & _ & _ & _ & Hfails).
  apply (Hfails _ verify_twoVersions).
Defined.


Lemma X16_nil_cached_map_is_a_miss_witness :
  files DemoWarm.nilCacheWorld !! "cache.json" = Some (FileContent [Byte.x00])
  ∧ @unmarshalPluginsInfoJSON Disk DemoWarm.collaborators [Byte.x00]
    = (None, None)
  ∧ ∃ out w' r w1,
      @loadPluginsTasks Disk DemoWarm.collaborators DemoWarm.twoDecls
                        "cache.json" DemoWarm.nilCacheWorld = (out, w')
      ∧ @resolvePlugins Disk DemoWarm.collaborators "plugins" "assets"
                        "downloads"
                        (@osarch_Current Disk DemoWarm.collaborators)
                        DemoWarm.twoDecls DemoWarm.nilCacheWorld = (r, w1)
      ∧ (∀ err, r = Err err → out = Some (Err err) ∧ w' = w1).
Proof.
  split; [reflexivity|]. split; [reflexivity|].
  destruct (@X16_nil_cached_map_is_a_miss Disk DemoWarm.collaborators
              DemoWarm.twoDecls "cache.json" DemoWarm.nilCacheWorld
              "plugins" "assets" "downloads" [Byte.x00])
    as (out & w' & r & w1 & Hrun & Hres & Herr & _);
    [reflexivity | discriminate | reflexivity | reflexivity |].
  exists out, w', r, w1. split; [exact Hrun|]. split; [exact Hres|exact Herr].
Defined.
